(** * scratch/dgw/tst_new_reflection_manager.py

    A shallow embedding of the comparison script
    [scratch/dgw/tst_new_reflection_manager.py] and the properties of it
    that the specification states.

    The script is glue code over cctbx, dxtbx and dials: it builds models,
    shifts their parameters, simulates observations, undoes the shifts,
    runs two refinement pipelines and compares their gradients under
    assertions.  The embedding follows the statements of the script.
    What the libraries compute is a parameter (the class [Library]); calls
    into them are taken to return.  Python's own behaviour (lists, [zip],
    [sorted], indexing, [assert], [print]) is written out.

    Python floats are IEEE 754 binary64 numbers, so they are Rocq's
    primitive floats, with the same arithmetic and the same comparisons
    ([0.0 == -0.0], a NaN equal to nothing). *)

From Stdlib Require Import Floats ZArith Lia Sorting.Sorted Sorting.Permutation.
From stdpp Require Import gmap strings list functions.

Set Warnings "-inexact-float,-clear-no-such-hyp".

(** ** Python: exceptions, output, sequencing *)

Module Py.

(** The exceptions that end a run of the script. *)
Inductive exn :=
  | AssertionError
  | IndexError
  | KeyError
  | TypeError.

Definition miller := (Z * Z * Z)%type.

(** One item of a reflection table. *)
Inductive cell :=
  | VDouble (x : float)
  | VSizeT (n : nat)
  | VMiller (hkl : miller).

(** What the script's own [print] statements write: a text, one of the
    models (lines 175-178), a text followed by a count, or one line of the
    preview loop (lines 348-349).  One item stands for one [print]
    statement run to its end, whatever number of lines that makes on the
    terminal.  What the libraries write themselves is not recorded, apart
    from the session of the console of line 365. *)
Inductive printed :=
  | PStr (s : string)
  | PModel (s : string)
  | PCount (s : string) (n : nat)
  | PPreview (hkl : cell) (dx dy dphi : float)
             (hkl_old : miller) (g_old : float * float * float).

(** A computation writes lines and then either raises or returns.  Nothing
    in the script catches an exception. *)
Definition M (A : Type) : Type := (list printed * (exn + A))%type.

Definition ret {A} (a : A) : M A := ([], inr a).

Definition raise {A} (e : exn) : M A := ([], inl e).

Definition bind {A B} (m : M A) (k : A -> M B) : M B :=
  match m with
  | (out, inl e) => (out, inl e)
  | (out, inr a) => let '(out', r) := k a in (out ++ out', r)
  end.

#[global] Instance M_ret : MRet M := @ret.
#[global] Instance M_bind : MBind M := fun A B k m => bind m k.

Definition print (p : printed) : M unit := ([p], inr tt).

(** [assert b] *)
Definition assert (b : bool) : M unit :=
  if b then ret tt else raise AssertionError.

(** [l[i]] for an index that is not negative: out of range raises. *)
Definition getitem {A} (l : list A) (i : nat) : M A :=
  match l !! i with
  | Some x => ret x
  | None => raise IndexError
  end.

(** [l[i] = x] *)
Definition setitem {A} (l : list A) (i : nat) (x : A) : M (list A) :=
  if decide (i < length l) then ret (<[i := x]> l) else raise IndexError.

(** [for x in xs: body], threading the variables the body assigns. *)
Fixpoint for_each {A S} (xs : list A) (body : A -> S -> M S) (s : S) : M S :=
  match xs with
  | [] => ret s
  | x :: xs' => s' ← body x s; for_each xs' body s'
  end.

(** [range(n)] *)
Definition range (n : nat) : list nat := seq 0 n.

(** [[a + b for a, b in zip(xs, ys)]]: [zip] stops at the shorter list. *)
Definition zip_add (xs ys : list float) : list float :=
  zip_with PrimFloat.add xs ys.

(** [sorted(l, key=key)]: ascending and stable, comparing keys with [<]
    only.  For keys that [<] orders totally (floats none of which is a NaN)
    this is the list every stable sort returns.  With a NaN among the keys
    [<] is no order and the list Python returns depends on how its sort
    merges; that list is not modelled, and what is proved of an order
    assumes keys that are no NaN. *)
Fixpoint insert_sorted {A K} (ltb : K -> K -> bool) (key : A -> K)
    (x : A) (l : list A) : list A :=
  match l with
  | [] => [x]
  | y :: l' =>
      if ltb (key y) (key x) then y :: insert_sorted ltb key x l'
      else x :: y :: l'
  end.

Definition sorted {A K} (ltb : K -> K -> bool) (key : A -> K)
    (l : list A) : list A :=
  foldr (insert_sorted ltb key) [] l.

(** What "ascending" says of two neighbours of a sorted list: the second
    has no smaller key than the first. *)
Definition ascending {A K} (ltb : K -> K -> bool) (key : A -> K)
    (x y : A) : Prop :=
  ltb (key y) (key x) = false.

(** [math.pi] *)
Definition pi : float := 0x1.921fb54442d18p+1%float.

(** [a == b] for two pairs of floats. *)
Definition pair_eqb (a b : float * float) : bool :=
  (a.1 =? b.1)%float && (a.2 =? b.2)%float.

End Py.

(** ** The data the script handles *)

(** Parameterisations (lines 110-128). *)
Module Params.
Import Py.

(** Modelled from the spec: a parameterisation wrapper "holds a reference to
    a model and exposes a numeric parameter vector with get/set".  The
    classes (dials.algorithms.refinement.parameterisation) are not among
    the sources.  A parameter can be fixed ([set_fixed], line 128); the
    vector that is read and written holds the free ones, in order.
    [set_param_vals] expects one value for each free parameter and writes
    them in that order. *)
Record parameter := { value : float; fixed : bool }.

Definition parameterisation := list parameter.

Definition is_free (x : parameter) : bool := negb (fixed x).

Definition num_free (p : parameterisation) : nat :=
  length (List.filter is_free p).

Definition get_param_vals (p : parameterisation) : list float :=
  map value (List.filter is_free p).

Fixpoint set_param_vals (vals : list float) (p : parameterisation)
    : parameterisation :=
  match p with
  | [] => []
  | x :: p' =>
      if fixed x then x :: set_param_vals vals p'
      else match vals with
           | v :: vals' =>
               {| value := v; fixed := false |} :: set_param_vals vals' p'
           | [] => x :: p'
           end
  end.

Definition set_fixed (flags : list bool) (p : parameterisation)
    : parameterisation :=
  zip_with (fun f x => {| value := value x; fixed := f |}) flags p.

(** The six parameterisation objects of lines 114-125.  The script holds
    them by reference, so the state is a store indexed by their names. *)
Inductive name :=
  | det_param | s0_param
  | xl1o_param | xl1uc_param
  | xl2o_param | xl2uc_param.

#[global] Instance name_eq_dec : EqDecision name.
Proof. solve_decision. Defined.

Abbreviation store := (name -> parameterisation).

(** [x.set_param_vals(vals)] on the object named [x]. *)
Definition call_set_param_vals (x : name) (vals : list float) (st : store)
    : store :=
  <[x := set_param_vals vals (st x)]> st.

(** The two crystal models, [crystal1] and [crystal2]. *)
Inductive crystal_model := crystal1 | crystal2.

(** The values the script keeps for the undoing. *)
Record saved := {
  det_p_vals : list float;
  s0_p_vals : list float;
  xlo_p_vals : list (list float);
  xluc_p_vals : list (list float);
}.

End Params.

(** Reflections as the prediction and the script fill them in
    (lines 195-245). *)
Module Reflection.
Import Py.

Record reflection := {
  miller_index : miller;
  rotation_angle : float;
  image_coord_mm : float * float;
  centroid_position : float * float * float;
  centroid_variance : float * float * float;
  frame_number : float;
  crystal : Z;
}.

End Reflection.

(** Reflection tables (lines 262-346). *)
Module Table.
Import Py.

Inductive column :=
  | CDouble (l : list float)
  | CSizeT (l : list nat)
  | CMiller (l : list miller).

Definition column_length (c : column) : nat :=
  match c with
  | CDouble l => length l
  | CSizeT l => length l
  | CMiller l => length l
  end.

Definition column_item (c : column) (i : nat) : option cell :=
  match c with
  | CDouble l => VDouble <$> l !! i
  | CSizeT l => VSizeT <$> l !! i
  | CMiller l => VMiller <$> l !! i
  end.

(** The rows of [l] that [idx] names, in the order of [idx]. *)
Definition take_rows {A} (idx : list nat) (l : list A) : list A :=
  omap (fun i => l !! i) idx.

Definition reorder_column (idx : list nat) (c : column) : column :=
  match c with
  | CDouble l => CDouble (take_rows idx l)
  | CSizeT l => CSizeT (take_rows idx l)
  | CMiller l => CMiller (take_rows idx l)
  end.

(** [a.select(idx)] on a flex array: the items of [a] at the indices
    [idx]; an index past the end raises.  The exceptions of the model have
    one class for an index out of range, Python's IndexError; the
    exception scitbx raises there is its own and is not told apart. *)
Definition select {A} (a : list A) (idx : list nat) : M (list A) :=
  for_each idx (fun i acc => x ← getitem a i; mret (acc ++ [x])) [].

(** A table has a number of rows and named columns, each with one item
    for every row. *)
Record reflection_table := {
  nrows : nat;
  columns : gmap string column;
}.

Definition consistent (t : reflection_table) : Prop :=
  forall name c, columns t !! name = Some c -> column_length c = nrows t.

(** [len(t)] *)
Definition len (t : reflection_table) : nat := nrows t.

(** [t[name]] *)
Definition getcol (t : reflection_table) (name : string) : M column :=
  match columns t !! name with
  | Some c => mret c
  | None => raise KeyError
  end.

(** [t[name] = c], for a column [c] of [len(t)] items. *)
Definition setcol (t : reflection_table) (name : string) (c : column)
    : reflection_table :=
  {| nrows := nrows t; columns := <[name := c]> (columns t) |}.

(** [t[i][name]] *)
Definition row_item (t : reflection_table) (i : nat) (name : string)
    : M cell :=
  if decide (i < nrows t) then
    c ← getcol t name;
    match column_item c i with
    | Some v => mret v
    | None => raise IndexError
    end
  else raise IndexError.

(** [miller_index] values compare as tuples. *)
Definition miller_ltb (a b : miller) : bool :=
  let '(h1, k1, l1) := a in
  let '(h2, k2, l2) := b in
  (h1 <? h2)%Z
  || ((h1 =? h2)%Z && ((k1 <? k2)%Z || ((k1 =? k2)%Z && (l1 <? l2)%Z))).

(** The row indices in ascending order of their keys, ties in row order. *)
Definition argsort {K} (ltb : K -> K -> bool) (keys : list K) : list nat :=
  (sorted ltb snd (zip (range (length keys)) keys)).*1.

Definition sort_permutation (c : column) : list nat :=
  match c with
  | CDouble l => argsort PrimFloat.ltb l
  | CSizeT l => argsort Nat.ltb l
  | CMiller l => argsort miller_ltb l
  end.

Definition reorder (idx : list nat) (t : reflection_table)
    : reflection_table :=
  {| nrows := nrows t; columns := reorder_column idx <$> columns t |}.

(** Modelled from the spec: "sorting two result sets by a common key".
    [reflection_table.sort(name)] (dials.array_family.flex) is not among
    the sources: it orders the rows of the table ascending by the column
    [name], which moves the items of every column alike. *)
Definition sort (t : reflection_table) (name : string) : M reflection_table :=
  c ← getcol t name;
  mret (reorder (sort_permutation c) t).

End Table.

(** The matches of the old reflection manager (lines 335-361): objects with
    a Miller index, an x residual and one gradient triple (X, Y, Phi) per
    parameter. *)
Module ObsPredMatch.
Import Py.

Record obs_pred_match := {
  miller_index : miller;
  x_resid : float;
  gradients : list (float * float * float);
}.

End ObsPredMatch.

(** ** What the libraries compute

    Every call of the script into cctbx, dxtbx or dials, by its result.
    The geometry a call works with is the state of the parameterisations at
    the time of the call. *)

Record gradient_arrays := {
  dX_dp : list (list float);
  dY_dp : list (list float);
  dPhi_dp : list (list float);
}.

Class Library := {
  (** [myscan.get_oscillation_range(deg=False)] of the scan of lines 87-92 *)
  get_oscillation_range : float * float;
  (** [myscan.get_oscillation(deg=False)] *)
  get_oscillation : float * float;
  (** [myscan.get_image_index_from_angle(angle, deg=False)] *)
  get_image_index_from_angle : float -> float;
  (** [len(experiments.detectors())] *)
  detectors : nat;
  (** the parameterisations as lines 114-125 build them *)
  parameterised : Params.store;
  (** [xl.get_unit_cell().parameters()] *)
  unit_cell_parameters :
    Params.crystal_model -> Params.store -> list float;
  (** [S.forward_independent_parameters()] for
      [S = symmetrize_reduce_enlarge(xl.get_space_group())] oriented by the
      transposed fractionalization matrix of [unit_cell(cell_params)]
      (lines 163-166) *)
  forward_independent_parameters :
    Params.crystal_model -> list float -> list float;
  (** [ref_predictor.predict(indices, experiment_id)] for the indices of a
      crystal within 2.0 Angstrom (lines 180-196) *)
  predict :
    Params.store -> Params.crystal_model -> list Reflection.reflection;
  (** [mydetector[0].get_pixel_size()] *)
  get_pixel_size : float * float;
  (** [ray_intersection(detector, refs)]: the reflections whose rays hit
      the detector, their [image_coord_mm] set *)
  ray_intersection :
    Params.store -> list Reflection.reflection -> list Reflection.reflection;
  (** [x ** y] on floats *)
  pow : float -> float -> float;
  (** [obs_refs.to_table(centroid_is_mm=True)] *)
  to_table : list Reflection.reflection -> Table.reflection_table;
  (** what the new classes do, one after the other, to the table they were
      handed: the construction of the reflection manager, [predict],
      [finalise], [calculate_gradients] (lines 267-303) *)
  new_pipeline_steps :
    Params.store -> list (Table.reflection_table -> Table.reflection_table);
  (** [refman.get_matches()] after [new_target.predict()] and
      [refman.finalise()] *)
  get_matches :
    Params.store -> Table.reflection_table -> Table.reflection_table;
  (** [new_target.calculate_gradients()] *)
  calculate_gradients :
    Params.store -> Table.reflection_table -> gradient_arrays;
  (** [old_refman.get_matches()] after [old_target.predict()] *)
  old_get_matches :
    Params.store -> Table.reflection_table
    -> list ObsPredMatch.obs_pred_match;
  (** [libtbx.test_utils.approx_equal] on two floats: what it returns.
      The lines it writes to the terminal when it returns [False] are the
      library's own and are not recorded. *)
  approx_equal : float -> float -> bool;
  (** what the session of [interactive_console()] (line 365) writes; the
      session is taken to end by returning *)
  interactive_console : list Py.printed;
}.

(** ** Objects held by reference (lines 262-267, 327) *)

Module Heap.
Import Table.

Abbreviation loc := nat.

Abbreviation heap := (gmap nat reflection_table).

#[global] Instance reflection_table_inhabited : Inhabited reflection_table :=
  populate {| nrows := 0; columns := ∅ |}.

(** A new object. *)
Definition alloc (t : reflection_table) (h : heap) : loc * heap :=
  let l := fresh (dom h) in (l, <[l := t]> h).

(** [deepcopy(x)]: a new object with the contents of [x]. *)
Definition deepcopy (l : loc) (h : heap) : loc * heap :=
  alloc (h !!! l) h.

(** A method that changes the object it is called on. *)
Definition mutate (f : reflection_table -> reflection_table) (l : loc)
    (h : heap) : heap :=
  alter f l h.

End Heap.

(** ** The script *)

Module Script.
Import Py Params Table Heap.

Section Script.
Context `{Library}.

Local Open Scope float_scope.

(** Lines 93-97. *)
Definition check_scan : M unit :=
  let sweep_range := get_oscillation_range in
  let temp := get_oscillation in
  let im_width := temp.2 - temp.1 in
  assert (pair_eqb sweep_range (0, pi));;
  assert (approx_equal im_width (0.1 * pi / 180)).

(** Line 108. *)
Definition check_detectors : M unit :=
  assert (detectors =? 1)%nat.

(** Line 128. *)
Definition fix_beam (st : store) : store :=
  <[s0_param := set_fixed [true; false] (st s0_param)]> st.

(** Lines 135-138. *)
Definition shift_detector (st : store) : store * list float :=
  let det_p_vals := get_param_vals (st det_param) in
  let p_vals := zip_add det_p_vals [2; 2; 2; 5; 5; 5] in
  let st := call_set_param_vals det_param p_vals st in
  (st, det_p_vals).

(** Lines 141-144. *)
Definition shift_beam (st : store) : M (store * list float) :=
  let s0_p_vals := get_param_vals (st s0_param) in
  let p_vals := s0_p_vals in
  x ← getitem p_vals 0;
  p_vals ← setitem p_vals 0 (x + 2);
  let st := call_set_param_vals s0_param p_vals st in
  mret (st, s0_p_vals).

(** Lines 147-152. *)
Definition rotate_crystals (st : store) : M (store * list (list float)) :=
  for_each [xl1o_param; xl2o_param]
    (fun xlo '(st, xlo_p_vals) =>
       let p_vals := get_param_vals (st xlo) in
       let xlo_p_vals := xlo_p_vals ++ [p_vals] in
       let new_p_vals := zip_add p_vals [2; 2; 2] in
       let st := call_set_param_vals xlo new_p_vals st in
       mret (st, xlo_p_vals))
    (st, []).

(** Lines 156-168. *)
Definition change_unit_cells (st : store) : M (store * list (list float)) :=
  for_each [(xl1uc_param, crystal1); (xl2uc_param, crystal2)]
    (fun '(xluc, xl) '(st, xluc_p_vals) =>
       let p_vals := get_param_vals (st xluc) in
       let xluc_p_vals := xluc_p_vals ++ [p_vals] in
       let cell_params := unit_cell_parameters xl st in
       let cell_params :=
         zip_add cell_params [0.1; 0.1; 0.1; 0.0; 0.0; 0.1] in
       let X := map (fun e => e * 1e5)
                    (forward_independent_parameters xl cell_params) in
       let st := call_set_param_vals xluc X st in
       mret (st, xluc_p_vals))
    (st, []).

(** "Apply known parameter shifts", lines 134-168. *)
Definition apply_shifts (st : store) : M (store * saved) :=
  let '(st, det) := shift_detector st in
  '(st, s0) ← shift_beam st;
  '(st, xlo) ← rotate_crystals st;
  '(st, xluc) ← change_unit_cells st;
  mret (st, {| det_p_vals := det; s0_p_vals := s0;
               xlo_p_vals := xlo; xluc_p_vals := xluc |}).

(** "Undo known parameter shifts", lines 251-256. *)
Definition undo_shifts (sv : saved) (st : store) : M store :=
  let st := call_set_param_vals s0_param (s0_p_vals sv) st in
  let st := call_set_param_vals det_param (det_p_vals sv) st in
  v ← getitem (xlo_p_vals sv) 0;
  let st := call_set_param_vals xl1o_param v st in
  v ← getitem (xlo_p_vals sv) 1;
  let st := call_set_param_vals xl2o_param v st in
  v ← getitem (xluc_p_vals sv) 0;
  let st := call_set_param_vals xl1uc_param v st in
  v ← getitem (xluc_p_vals sv) 1;
  let st := call_set_param_vals xl2uc_param v st in
  mret st.

(** Lines 202-206. *)
Definition im_width : float := 0.1 * pi / 180.
Definition var_x : float := pow (get_pixel_size.1 / 2) 2.
Definition var_y : float := pow (get_pixel_size.2 / 2) 2.
Definition var_phi : float := pow (im_width / 2) 2.

(** The body of the loops of lines 211-239; they differ in the crystal
    number alone. *)
Definition set_observation (crystal_number : Z)
    (ref : Reflection.reflection) : Reflection.reflection :=
  let centroid_position :=
    (ref.(Reflection.image_coord_mm).1, ref.(Reflection.image_coord_mm).2,
     ref.(Reflection.rotation_angle)) in
  let centroid_variance := (var_x, var_y, var_phi) in
  let frame_number :=
    get_image_index_from_angle ref.(Reflection.rotation_angle) in
  {| Reflection.miller_index := ref.(Reflection.miller_index);
     Reflection.rotation_angle := ref.(Reflection.rotation_angle);
     Reflection.image_coord_mm := ref.(Reflection.image_coord_mm);
     Reflection.centroid_position := centroid_position;
     Reflection.centroid_variance := centroid_variance;
     Reflection.frame_number := frame_number;
     Reflection.crystal := crystal_number |}.

(** Lines 195-196 and 208-209: the reflections predicted for a crystal
    that hit the detector. *)
Definition intersected (st : store) (xl : crystal_model)
    : list Reflection.reflection :=
  ray_intersection st (predict st xl).

(** "Generate some reflections", lines 174-245. *)
Definition generate_reflections (st : store)
    : M (list Reflection.reflection) :=
  print (PStr "Reflections will be generated with the following geometry:");;
  print (PModel "mybeam");;
  print (PModel "mydetector");;
  print (PModel "crystal1");;
  print (PModel "crystal2");;
  let obs_refs1 := predict st crystal1 in
  let obs_refs2 := predict st crystal2 in
  print (PCount "Total number of reflections excited for crystal1"
           (length obs_refs1));;
  print (PCount "Total number of reflections excited for crystal2"
           (length obs_refs2));;
  let obs_refs1 := ray_intersection st obs_refs1 in
  let obs_refs2 := ray_intersection st obs_refs2 in
  let obs_refs1 := map (set_observation 0) obs_refs1 in
  let obs_refs2 := map (set_observation 1) obs_refs2 in
  print (PCount "Total number of observations made for crystal1"
           (length obs_refs1));;
  print (PCount "Total number of observations made for crystal2"
           (length obs_refs2));;
  mret (obs_refs1 ++ obs_refs2).

(** Lines 262-264: the table of observations and its copy. *)
Definition make_tables (obs_refs : list Reflection.reflection)
    : loc * loc * heap :=
  let '(reflections, h) := alloc (to_table obs_refs) ∅ in
  let '(old_reflections, h) := deepcopy reflections h in
  (reflections, old_reflections, h).

(** Lines 267-306: the new classes work on the object [reflections]. *)
Definition run_new_pipeline (st : store) (reflections : loc) (h : heap)
    : heap * reflection_table * gradient_arrays :=
  let h := foldl (fun h f => mutate f reflections h) h
                 (new_pipeline_steps st) in
  let t := h !!! reflections in
  (h, get_matches st t, calculate_gradients st t).

(** Lines 316-335: the old classes work on the object [old_reflections]. *)
Definition run_old_pipeline (st : store) (old_reflections : loc) (h : heap)
    : list ObsPredMatch.obs_pred_match :=
  old_get_matches st (h !!! old_reflections).

(** Lines 306-311. *)
Definition attach_columns (new_matches : reflection_table)
    (g : gradient_arrays) : M reflection_table :=
  let new_matches :=
    setcol new_matches "order" (CSizeT (range (len new_matches))) in
  c ← getitem (dX_dp g) 0;
  let new_matches := setcol new_matches "dX_dp0" (CDouble c) in
  c ← getitem (dY_dp g) 0;
  let new_matches := setcol new_matches "dY_dp0" (CDouble c) in
  c ← getitem (dPhi_dp g) 0;
  let new_matches := setcol new_matches "dPhi_dp0" (CDouble c) in
  mret new_matches.

(** [new_matches['order']] as the argument of [select]. *)
Definition order_column (new_matches : reflection_table) : M (list nat) :=
  c ← getcol new_matches "order";
  match c with
  | CSizeT l => mret l
  | _ => raise TypeError
  end.

(** Lines 343-345: one round of the loop of line 342. *)
Definition select_gradient (new_matches : reflection_table) (i : nat)
    (g : gradient_arrays) : M gradient_arrays :=
  a ← getitem (dX_dp g) i;
  order ← order_column new_matches;
  a ← select a order;
  dX ← setitem (dX_dp g) i a;
  a ← getitem (dY_dp g) i;
  order ← order_column new_matches;
  a ← select a order;
  dY ← setitem (dY_dp g) i a;
  a ← getitem (dPhi_dp g) i;
  order ← order_column new_matches;
  a ← select a order;
  dPhi ← setitem (dPhi_dp g) i a;
  mret {| dX_dp := dX; dY_dp := dY; dPhi_dp := dPhi |}.

(** Lines 342-345. *)
Definition select_gradients (new_matches : reflection_table)
    (g : gradient_arrays) : M gradient_arrays :=
  for_each (range (length (dX_dp g))) (select_gradient new_matches) g.

(** Lines 340-346. *)
Definition sort_matches (new_matches : reflection_table)
    (g : gradient_arrays) (old_matches : list ObsPredMatch.obs_pred_match)
    : M (reflection_table * gradient_arrays
         * list ObsPredMatch.obs_pred_match) :=
  new_matches ← sort new_matches "x_resid";
  g ← select_gradients new_matches g;
  let old_matches :=
    sorted PrimFloat.ltb ObsPredMatch.x_resid old_matches in
  mret (new_matches, g, old_matches).

(** Line 349: one line of the preview.  The line is recorded when its
    last item has been evaluated: a [print] statement that raises while it
    evaluates an item is not recorded, though Python has by then written
    the items before it. *)
Definition preview_line (new_matches : reflection_table)
    (g : gradient_arrays) (old_matches : list ObsPredMatch.obs_pred_match)
    (i : nat) : M unit :=
  hkl ← row_item new_matches i "miller_index";
  a ← getitem (dX_dp g) 0;
  dx ← getitem a i;
  a ← getitem (dY_dp g) 0;
  dy ← getitem a i;
  a ← getitem (dPhi_dp g) 0;
  dphi ← getitem a i;
  m ← getitem old_matches i;
  let hkl_old := ObsPredMatch.miller_index m in
  m ← getitem old_matches i;
  g0 ← getitem (ObsPredMatch.gradients m) 0;
  print (PPreview hkl dx dy dphi hkl_old g0).

(** Lines 348-349. *)
Definition preview (new_matches : reflection_table) (g : gradient_arrays)
    (old_matches : list ObsPredMatch.obs_pred_match) : M unit :=
  for_each (range 10)
    (fun i _ => preview_line new_matches g old_matches i) tt.

(** Lines 359-361, for one reflection [i] and one parameter [j]. *)
Definition test_gradient (g : gradient_arrays)
    (old_matches : list ObsPredMatch.obs_pred_match) (i j : nat) : M unit :=
  a ← getitem (dX_dp g) j;
  x ← getitem a i;
  m ← getitem old_matches i;
  gj ← getitem (ObsPredMatch.gradients m) j;
  assert (approx_equal x gj.1.1);;
  a ← getitem (dY_dp g) j;
  y ← getitem a i;
  m ← getitem old_matches i;
  gj ← getitem (ObsPredMatch.gradients m) j;
  assert (approx_equal y gj.1.2);;
  a ← getitem (dPhi_dp g) j;
  phi ← getitem a i;
  m ← getitem old_matches i;
  gj ← getitem (ObsPredMatch.gradients m) j;
  assert (approx_equal phi gj.2).

(** Lines 355-361. *)
Definition test_gradients (new_matches : reflection_table)
    (g : gradient_arrays) (old_matches : list ObsPredMatch.obs_pred_match)
    : M unit :=
  for_each (range (len new_matches))
    (fun i _ =>
       for_each (range (length (dX_dp g)))
         (fun j _ => test_gradient g old_matches i j) tt)
    tt.

(** Lines 300-364: the comparison of the two sets of matches. *)
Definition compare (matches : reflection_table) (g : gradient_arrays)
    (old_matches : list ObsPredMatch.obs_pred_match) : M unit :=
  print (PCount "number of matches from new relfeciotn manager"
           (len matches));;
  new_matches ← attach_columns matches g;
  print (PStr "OLD CLASSES");;
  print (PStr "BUILDING OLD STYLE REFLECTION MANAGER");;
  print (PStr "OLD STYLE PREDICTION AND GRAD CALC");;
  print (PCount "number of matches from old relfeciotn manager"
           (length old_matches));;
  '(new_matches, g, old_matches) ← sort_matches new_matches g old_matches;
  preview new_matches g old_matches;;
  print (PStr "TESTING GRADIENTS");;
  test_gradients new_matches g old_matches;;
  print (PStr "OK").

(** Lines 128-335 without the prints of the comparison: the simulation
    of the observations and the two refinement pipelines. *)
Definition simulate_and_refine
    : M (reflection_table * gradient_arrays
         * list ObsPredMatch.obs_pred_match) :=
  let st := fix_beam parameterised in
  '(st, sv) ← apply_shifts st;
  obs_refs ← generate_reflections st;
  st ← undo_shifts sv st;
  let '(reflections, old_reflections, h) := make_tables obs_refs in
  print (PStr "NEW CLASSES");;
  let '(h, matches, g) := run_new_pipeline st reflections h in
  let old_matches := run_old_pipeline st old_reflections h in
  mret (matches, g, old_matches).

(** Line 365: the interactive console, which opens once "OK" is written. *)
Definition console : M unit := (interactive_console, inr tt).

(** The script, lines 86-365. *)
Definition script : M unit :=
  check_scan;;
  check_detectors;;
  '(matches, g, old_matches) ← simulate_and_refine;
  compare matches g old_matches;;
  console.

End Script.

End Script.

(** ** Notions of the statements *)

Module Checks.
Import Py Params Table Heap Script.

Section Checks.
Context `{Library}.

Local Open Scope float_scope.

(** The conditions of the assertions of lines 96, 97 and 108. *)
Definition range_ok : bool := pair_eqb get_oscillation_range (0, pi).

Definition width_ok : bool :=
  approx_equal (get_oscillation.2 - get_oscillation.1) (0.1 * pi / 180).

Definition detectors_ok : bool := (detectors =? 1)%nat.

(** The arrays after one round [i] of the loop of line 342, which replaces
    the three arrays [a], [b], [c] of parameter [i] by their selections. *)
Definition selected (order : list nat) (i : nat) (g : gradient_arrays)
    (a b c : list float) : gradient_arrays :=
  {| dX_dp := <[i := take_rows order a]> (dX_dp g);
     dY_dp := <[i := take_rows order b]> (dY_dp g);
     dPhi_dp := <[i := take_rows order c]> (dPhi_dp g) |}.

(** The matches and gradients as the comparison loop meets them: after
    the columns of lines 308-311 and the sorting of lines 340-346. *)
Definition compared (matches : reflection_table) (g : gradient_arrays)
    (old_matches : list ObsPredMatch.obs_pred_match)
    (new_matches' : reflection_table) (g' : gradient_arrays)
    (old_matches' : list ObsPredMatch.obs_pred_match) : Prop :=
  exists new_matches,
    attach_columns matches g = ([], inr new_matches)
    /\ sort_matches new_matches g old_matches
       = ([], inr (new_matches', g', old_matches')).

(** [arrays[j][i]], the gradient of reflection [i] for parameter [j]. *)
Definition component_at (arrays : list (list float)) (i j : nat)
    : option float :=
  arrays !! j ≫= fun a => a !! i.

(** [old_matches[i].gradients[j]] *)
Definition old_gradient_at (old_matches : list ObsPredMatch.obs_pred_match)
    (i j : nat) : option (float * float * float) :=
  old_matches !! i ≫= fun m => ObsPredMatch.gradients m !! j.

(** The three assertions of lines 359-361 hold for [i] and [j]. *)
Definition agree_at (g : gradient_arrays)
    (old_matches : list ObsPredMatch.obs_pred_match) (i j : nat) : Prop :=
  exists x y phi gj,
    component_at (dX_dp g) i j = Some x
    /\ component_at (dY_dp g) i j = Some y
    /\ component_at (dPhi_dp g) i j = Some phi
    /\ old_gradient_at old_matches i j = Some gj
    /\ approx_equal x gj.1.1 = true
    /\ approx_equal y gj.1.2 = true
    /\ approx_equal phi gj.2 = true.

(** One of them fails for [i] and [j]. *)
Definition mismatch_at (g : gradient_arrays)
    (old_matches : list ObsPredMatch.obs_pred_match) (i j : nat) : Prop :=
  exists gj,
    old_gradient_at old_matches i j = Some gj
    /\ ((exists x, component_at (dX_dp g) i j = Some x
                   /\ approx_equal x gj.1.1 = false)
        \/ (exists y, component_at (dY_dp g) i j = Some y
                      /\ approx_equal y gj.1.2 = false)
        \/ (exists phi, component_at (dPhi_dp g) i j = Some phi
                        /\ approx_equal phi gj.2 = false)).


Definition gradient_mismatch (matches : reflection_table)
    (g : gradient_arrays) (old_matches : list ObsPredMatch.obs_pred_match)
    : Prop :=
  exists new_matches' g' old_matches' i j,
    compared matches g old_matches new_matches' g' old_matches'
    /\ i < len new_matches' /\ j < length (dX_dp g')
    /\ mismatch_at g' old_matches' i j.

(** What lines 300-336 write. *)
Definition count_new (matches : reflection_table) : printed :=
  PCount "number of matches from new relfeciotn manager" (len matches).

Definition count_old (old_matches : list ObsPredMatch.obs_pred_match)
    : printed :=
  PCount "number of matches from old relfeciotn manager"
         (length old_matches).

Definition old_banner (old_matches : list ObsPredMatch.obs_pred_match)
    : list printed :=
  [PStr "OLD CLASSES"; PStr "BUILDING OLD STYLE REFLECTION MANAGER";
   PStr "OLD STYLE PREDICTION AND GRAD CALC"; count_old old_matches].

(** The table after lines 308-311. *)
Definition attached (matches : reflection_table) (a b c : list float)
    : reflection_table :=
  setcol (setcol (setcol (setcol matches "order"
                            (CSizeT (range (len matches))))
                    "dX_dp0" (CDouble a))
            "dY_dp0" (CDouble b))
    "dPhi_dp0" (CDouble c).

Definition attached_names : list string :=
  ["order"; "dX_dp0"; "dY_dp0"; "dPhi_dp0"].

(** What the preview loop writes. *)
Definition is_preview (p : printed) : Prop :=
  match p with
  | PPreview _ _ _ _ _ _ => True
  | _ => False
  end.




End Checks.

End Checks.
(** ** The scan of lines 87-97 and the tolerance of [approx_equal] *)

Module Scan.
Import Py.

Local Open Scope float_scope.

(** Modelled from the spec: "a synthetic rotation scan", whose "oscillation
    sweep range" and "per-image angular width" the script checks.
    [scan_factory] and the scan class (dxtbx.model.scan) are not among the
    sources.  A scan keeps the range of its image numbers, its exposure
    times, its epochs, and the start and the width of one image as angles
    in radians; [make_scan(..., deg=True)] is given them in degrees.  The
    sweep range runs from the start over the width of every image. *)
Record scan := {
  image_range : Z * Z;
  exposure_times : float;
  oscillation : float * float;
  epochs : list nat;
}.

Definition deg_as_rad (x : float) : float := x * (pi / 180).

Definition make_scan (image_range : Z * Z) (exposure_times : float)
    (oscillation : float * float) (epochs : list nat) (deg : bool) : scan :=
  {| image_range := image_range;
     exposure_times := exposure_times;
     oscillation :=
       if deg then (deg_as_rad oscillation.1, deg_as_rad oscillation.2)
       else oscillation;
     epochs := epochs |}.

Definition num_images (s : scan) : Z :=
  (1 + (image_range s).2 - (image_range s).1)%Z.

(** [s.get_oscillation(deg=False)] *)
Definition get_oscillation (s : scan) : float * float := oscillation s.

(** [s.get_oscillation_range(deg=False)] *)
Definition get_oscillation_range (s : scan) : float * float :=
  ((oscillation s).1,
   (oscillation s).1
   + PrimFloat.of_uint63 (Uint63.of_Z (num_images s)) * (oscillation s).2).

(** Lines 87-92. *)
Definition myscan : scan :=
  make_scan (1, 1800)%Z 0.1 (0, 0.1) (range 1800) true.

End Scan.

Module Libtbx.

Local Open Scope float_scope.

(** Modelled from the spec: "within floating-point tolerance".
    [approx_equal] (libtbx.test_utils) is not among the sources.  With its
    defaults, [eps = 1e-6] and [multiplier = 1e10], it accepts two floats
    whose difference is not above [eps], and a larger difference only if
    it vanishes beside [multiplier] times the larger of the two. *)
Definition eps : float := 1e-6.

Definition multiplier : float := 1e10.

(** [max(a1, a2)] *)
Definition max (a1 a2 : float) : float := if a1 <? a2 then a2 else a1.

Definition approx_equal (a1 a2 : float) : bool :=
  let d := a1 - a2 in
  if eps <? abs d then
    let am := max a1 a2 * multiplier in
    let d := (am - d) - am in
    d =? 0
  else true.

End Libtbx.


(** ** A small world to run the script in

    A library instance that computes: the scan of lines 87-92, the
    tolerance of [approx_equal], one detector, parameterisations of
    the usual sizes, [n] reflections per run of the new classes and
    [n_old] matches of the old ones, whose gradients are the same numbers
    in another order. *)

Module Demo.
Import Py Params Table.

Local Open Scope float_scope.

Definition of_nat (n : nat) : float :=
  PrimFloat.of_uint63 (Uint63.of_Z (Z.of_nat n)).

Definition free (v : float) : parameter := {| value := v; fixed := false |}.

Definition width : float := Scan.deg_as_rad 0.1.

Definition parameterisations : store := fun x =>
  match x with
  | det_param => map free [100; 0; 0; 0; 0; 0]
  | s0_param => map free [0; 0]
  | xl1o_param | xl2o_param => map free [0; 0; 0]
  | xl1uc_param => map free [10; 11; 12; 90; 90; 90]
  | xl2uc_param => map free [20; 21; 22; 90; 90; 90]
  end.

Definition predicted (n : nat) (xl : crystal_model)
    : list Reflection.reflection :=
  map (fun i =>
         {| Reflection.miller_index :=
              (Z.of_nat i, match xl with crystal1 => 1 | crystal2 => 2 end,
               0)%Z;
            Reflection.rotation_angle := of_nat i * width;
            Reflection.image_coord_mm := (0, 0);
            Reflection.centroid_position := (0, 0, 0);
            Reflection.centroid_variance := (0, 0, 0);
            Reflection.frame_number := 0;
            Reflection.crystal := 0 |})
      (range n).

Definition hit (ref : Reflection.reflection) : Reflection.reflection :=
  {| Reflection.miller_index := ref.(Reflection.miller_index);
     Reflection.rotation_angle := ref.(Reflection.rotation_angle);
     Reflection.image_coord_mm := (ref.(Reflection.rotation_angle), 1);
     Reflection.centroid_position := ref.(Reflection.centroid_position);
     Reflection.centroid_variance := ref.(Reflection.centroid_variance);
     Reflection.frame_number := ref.(Reflection.frame_number);
     Reflection.crystal := ref.(Reflection.crystal) |}.

Definition table_of (refs : list Reflection.reflection) : reflection_table :=
  {| nrows := length refs;
     columns :=
       {[ "miller_index" := CMiller (map Reflection.miller_index refs);
          "phi" := CDouble (map Reflection.rotation_angle refs) ]} |}.

(** The x residual of row [i]: the rows come out of order. *)
Definition resid (i : nat) : float :=
  of_nat (if (i <? 10)%nat then (7 * i) mod 10 else i).

(** The gradient of row [i] for parameter [j]. *)
Definition grad (c i j : nat) : float := of_nat (100 * c + 10 * i + j).

Definition matches (n : nat) : reflection_table :=
  {| nrows := n;
     columns :=
       {[ "miller_index" := CMiller (map (fun i => (Z.of_nat i, 0, 0)%Z)
                                         (range n));
          "x_resid" := CDouble (map resid (range n)) ]} |}.

Definition gradients_for (n : nat) : gradient_arrays :=
  {| dX_dp := map (fun j => map (fun i => grad 1 i j) (range n)) (range 3);
     dY_dp := map (fun j => map (fun i => grad 2 i j) (range n)) (range 3);
     dPhi_dp := map (fun j => map (fun i => grad 3 i j) (range n)) (range 3) |}.

Definition old_matches_for (n_old : nat)
    : list ObsPredMatch.obs_pred_match :=
  map (fun i =>
         {| ObsPredMatch.miller_index := (Z.of_nat i, 0, 0)%Z;
            ObsPredMatch.x_resid := resid i;
            ObsPredMatch.gradients :=
              map (fun j => (grad 1 i j, grad 2 i j, grad 3 i j))
                  (range 3) |})
      (rev (range n_old)).

Definition library (n n_old : nat) : Library := {|
  get_oscillation_range := Scan.get_oscillation_range Scan.myscan;
  get_oscillation := Scan.get_oscillation Scan.myscan;
  get_image_index_from_angle := fun angle => 1 + angle / width;
  detectors := 1;
  parameterised := parameterisations;
  unit_cell_parameters := fun xl st =>
    get_param_vals
      (st match xl with crystal1 => xl1uc_param | crystal2 => xl2uc_param end);
  forward_independent_parameters := fun _ cell => cell;
  predict := fun _ xl => predicted 2 xl;
  get_pixel_size := (0.172, 0.172);
  ray_intersection := fun _ refs => map hit refs;
  pow := fun x _ => x * x;
  to_table := table_of;
  new_pipeline_steps := fun _ =>
    [fun t => setcol t "flags" (CSizeT (map (fun _ => 0%nat) (range (len t))));
     fun t => reorder (rev (range (len t))) t];
  get_matches := fun _ _ => matches n;
  calculate_gradients := fun _ _ => gradients_for n;
  old_get_matches := fun _ _ => old_matches_for n_old;
  approx_equal := Libtbx.approx_equal;
  interactive_console := [PStr ">>>"];
|}.

End Demo.

(** ** Further notions of the statements *)

Module Runs.
Import Py Params Table Script Checks.

(** Two runs that write as many lines and end alike: on the same
    exception, or on results that [Q] relates. *)
Definition alike {A B} (Q : A -> B -> Prop) (m1 : M A) (m2 : M B) : Prop :=
  length m1.1 = length m2.1
  /\ match m1.2, m2.2 with
     | inl e1, inl e2 => e1 = e2
     | inr a1, inr a2 => Q a1 a2
     | _, _ => False
     end.

(** Two matches of the old reflection manager that differ at most in
    their Miller index. *)
Definition same_but_index (m1 m2 : ObsPredMatch.obs_pred_match) : Prop :=
  ObsPredMatch.x_resid m1 = ObsPredMatch.x_resid m2
  /\ ObsPredMatch.gradients m1 = ObsPredMatch.gradients m2.


Section Runs.
Context `{Library}.

Local Open Scope float_scope.

(** What lines 174-242 write for the geometry [st]. *)
Definition generation_lines (st : store) : list printed :=
  [PStr "Reflections will be generated with the following geometry:";
   PModel "mybeam"; PModel "mydetector"; PModel "crystal1";
   PModel "crystal2";
   PCount "Total number of reflections excited for crystal1"
          (length (predict st crystal1));
   PCount "Total number of reflections excited for crystal2"
          (length (predict st crystal2));
   PCount "Total number of observations made for crystal1"
          (length (intersected st crystal1));
   PCount "Total number of observations made for crystal2"
          (length (intersected st crystal2))].

(** The observations of lines 211-245 for the geometry [st]. *)
Definition observations (st : store) : list Reflection.reflection :=
  map (set_observation 0) (intersected st crystal1)
  ++ map (set_observation 1) (intersected st crystal2).


(** The three assertions of lines 359-361 for the row [r] of the gradient
    arrays and the old match [m], for parameter [j]. *)
Definition agree_with (g : gradient_arrays) (r : nat)
    (m : ObsPredMatch.obs_pred_match) (j : nat) : Prop :=
  exists x y phi gj,
    component_at (dX_dp g) r j = Some x
    /\ component_at (dY_dp g) r j = Some y
    /\ component_at (dPhi_dp g) r j = Some phi
    /\ ObsPredMatch.gradients m !! j = Some gj
    /\ approx_equal x gj.1.1 = true
    /\ approx_equal y gj.1.2 = true
    /\ approx_equal phi gj.2 = true.

End Runs.

End Runs.

(** Variations of a library, to run the script where a check fails or a
    result is missing. *)
Module Variants.
Import Table.

(** The library [L] with [d] detectors in the experiment list. *)
Definition with_detectors (d : nat) (L : Library) : Library := {|
  get_oscillation_range := @get_oscillation_range L;
  get_oscillation := @get_oscillation L;
  get_image_index_from_angle := @get_image_index_from_angle L;
  detectors := d;
  parameterised := @parameterised L;
  unit_cell_parameters := @unit_cell_parameters L;
  forward_independent_parameters := @forward_independent_parameters L;
  predict := @predict L;
  get_pixel_size := @get_pixel_size L;
  ray_intersection := @ray_intersection L;
  pow := @pow L;
  to_table := @to_table L;
  new_pipeline_steps := @new_pipeline_steps L;
  get_matches := @get_matches L;
  calculate_gradients := @calculate_gradients L;
  old_get_matches := @old_get_matches L;
  approx_equal := @approx_equal L;
  interactive_console := @interactive_console L;
|}.



End Variants.

(** * Properties *)

Import Py Params Table Heap Script Checks.

(** ** Sequencing *)

Lemma bind_ok {A B} (m : M A) (k : A -> M B) out b :
  m ≫= k = (out, inr b) <->
  exists o1 a o2, m = (o1, inr a) /\ k a = (o2, inr b) /\ out = o1 ++ o2.
Proof.
  unfold mbind, M_bind, bind. destruct m as [o1 [e|a]].
  - split; [discriminate|]. intros (? & ? & ? & [=] & _).
  - destruct (k a) as [o2 r] eqn:Hk. split.
    + intros [= <- ->]. eauto 10.
    + intros (? & ? & ? & [= <- <-] & Hk' & ->).
      rewrite Hk in Hk'. by injection Hk' as <- <-.
Qed.

Lemma bind_err {A B} (m : M A) (k : A -> M B) out e :
  m ≫= k = (out, inl e) <->
  m = (out, inl e) \/
  exists o1 a o2, m = (o1, inr a) /\ k a = (o2, inl e) /\ out = o1 ++ o2.
Proof.
  unfold mbind, M_bind, bind. destruct m as [o1 [e'|a]].
  - split.
    + intros [= <- <-]. by left.
    + intros [[= <- <-]|(? & ? & ? & [=] & _)]. done.
  - destruct (k a) as [o2 r] eqn:Hk. split.
    + intros [= <- ->]. right. eauto 10.
    + intros [[=]|(? & ? & ? & [= <- <-] & Hk' & ->)].
      rewrite Hk in Hk'. by injection Hk' as <- <-.
Qed.

Lemma bind_ok_l {A B} (a : A) (k : A -> M B) m :
  (([], inr a) : M A) ≫= k = m -> k a = m.
Proof.
  unfold mbind, M_bind, bind. destruct (k a) as [o r]. by intros <-.
Qed.

Lemma bind_raise_l {A B} (e : exn) (k : A -> M B) out r :
  (([], inl e) : M A) ≫= k = (out, r) -> out = [] /\ r = inl e.
Proof. unfold mbind, M_bind, bind. by intros [= <- <-]. Qed.

Lemma bind_cases {A B} (m : M A) (k : A -> M B) o1 a out r :
  m = (o1, inr a) ->
  m ≫= k = (out, r) -> exists o2, out = o1 ++ o2 /\ k a = (o2, r).
Proof.
  intros ->. unfold mbind, M_bind, bind. destruct (k a) as [o2 r'].
  intros [= <- <-]. by exists o2.
Qed.

Lemma mret_ok {A} (a b : A) out :
  (mret a : M A) = (out, inr b) <-> out = [] /\ a = b.
Proof. unfold mret, M_ret, ret. naive_solver. Qed.

Lemma assert_ok b out u :
  assert b = (out, inr u) <-> out = [] /\ b = true.
Proof.
  unfold assert, raise, ret. destruct u, b; naive_solver.
Qed.

Lemma assert_err b out e :
  assert b = (out, inl e) <-> out = [] /\ b = false /\ e = AssertionError.
Proof.
  unfold assert, raise, ret. destruct b; naive_solver.
Qed.

Lemma getitem_ok {A} (l : list A) i x out :
  getitem l i = (out, inr x) <-> out = [] /\ l !! i = Some x.
Proof.
  unfold getitem, raise, ret. destruct (l !! i); naive_solver.
Qed.

Lemma getitem_err {A} (l : list A) i e out :
  getitem l i = (out, inl e) <->
  out = [] /\ l !! i = None /\ e = IndexError.
Proof.
  unfold getitem, raise, ret. destruct (l !! i); naive_solver.
Qed.

Lemma setitem_ok {A} (l : list A) i x l' out :
  setitem l i x = (out, inr l') <->
  out = [] /\ i < length l /\ l' = <[i := x]> l.
Proof.
  unfold setitem, raise, ret. case_decide; naive_solver lia.
Qed.

Lemma setitem_err {A} (l : list A) i x e out :
  setitem l i x = (out, inl e) <->
  out = [] /\ length l <= i /\ e = IndexError.
Proof.
  unfold setitem, raise, ret. case_decide; naive_solver lia.
Qed.

Lemma print_ok p out u : print p = (out, inr u) <-> out = [p].
Proof. unfold print. destruct u. naive_solver. Qed.

(** A loop whose state is [tt] returns when each of its rounds does, and
    raises what its first failing round raises. *)
Lemma for_each_unit_ok {A} (xs : list A) (f : A -> M unit) out :
  for_each xs (fun x _ => f x) tt = (out, inr tt) ->
  Forall (fun x => exists o, f x = (o, inr tt)) xs.
Proof.
  revert out. induction xs as [|x xs IH]; intros out; simpl; [constructor|].
  intros (o1 & [] & o2 & Hx & Hxs & ->)%bind_ok. constructor; eauto.
Qed.

Lemma for_each_unit_err {A} (xs : list A) (f : A -> M unit) out e :
  for_each xs (fun x _ => f x) tt = (out, inl e) ->
  exists x o, x ∈ xs /\ f x = (o, inl e).
Proof.
  revert out. induction xs as [|x xs IH]; intros out; simpl; [done|].
  intros [Hx|(o1 & [] & o2 & Hx & Hxs & ->)]%bind_err.
  - exists x, out. split; [left|done].
  - destruct (IH _ Hxs) as (y & o & Hy & Hfy). exists y, o. split; [by right|done].
Qed.

Lemma for_each_unit_silent {A} (xs : list A) (f : A -> M unit) :
  Forall (fun x => f x = ([], inr tt)) xs ->
  for_each xs (fun x _ => f x) tt = ([], inr tt).
Proof.
  induction 1 as [|x xs Hx _ IH]; simpl; [done|].
  apply bind_ok. exists [], tt, []. by rewrite Hx, IH.
Qed.

(** ** Generated observations (lines 174-245) *)

Section Observations.
Context `{Library}.

Lemma generate_reflections_returns st :
  exists out,
    generate_reflections st
    = (out, inr (map (set_observation 0) (intersected st crystal1)
                 ++ map (set_observation 1) (intersected st crystal2))).
Proof. eexists. reflexivity. Qed.

(** C8: every reflection of both lists, after the ray intersection, gets
    its centroid position from its detector coordinates and its rotation
    angle, the one variance triple ((px/2)^2, (py/2)^2, (im_width/2)^2)
    with im_width = 0.1 * pi / 180, and the frame number the scan computes
    from its rotation angle; its coordinates, angle and index stay as the
    intersection left them. *)
Theorem observation_fields_set st :
  exists out obs_refs,
    generate_reflections st = (out, inr obs_refs)
    /\ Forall (fun ref =>
         ref.(Reflection.centroid_position)
         = (ref.(Reflection.image_coord_mm).1,
            ref.(Reflection.image_coord_mm).2,
            ref.(Reflection.rotation_angle))
         /\ ref.(Reflection.centroid_variance)
            = (pow (get_pixel_size.1 / 2) 2, pow (get_pixel_size.2 / 2) 2,
               pow (0.1 * Py.pi / 180 / 2) 2)%float
         /\ ref.(Reflection.frame_number)
            = get_image_index_from_angle ref.(Reflection.rotation_angle))
         obs_refs
    /\ Forall2 (fun r ref =>
         ref.(Reflection.image_coord_mm) = r.(Reflection.image_coord_mm)
         /\ ref.(Reflection.rotation_angle) = r.(Reflection.rotation_angle)
         /\ ref.(Reflection.miller_index) = r.(Reflection.miller_index))
         (intersected st crystal1 ++ intersected st crystal2) obs_refs.
Proof.
  destruct (generate_reflections_returns st) as [out Hrun].
  eexists _, _. split; [exact Hrun|]. split.
  - apply Forall_app. split; apply Forall_fmap, Forall_true; done.
  - apply Forall2_app; apply Forall2_fmap_r, Forall_Forall2_diag, Forall_true;
      done.
Qed.

(** C10: in the concatenated list the first [len(obs_refs1)] records, those
    made from the reflections of crystal1, carry crystal number 0, and the
    rest, those made from the reflections of crystal2, carry 1. *)
Theorem crystal_numbers_kept st :
  exists out obs_refs1 obs_refs2,
    generate_reflections st = (out, inr (obs_refs1 ++ obs_refs2))
    /\ Forall2 (fun r ref =>
         ref.(Reflection.miller_index) = r.(Reflection.miller_index)
         /\ ref.(Reflection.crystal) = 0%Z)
         (intersected st crystal1) obs_refs1
    /\ Forall2 (fun r ref =>
         ref.(Reflection.miller_index) = r.(Reflection.miller_index)
         /\ ref.(Reflection.crystal) = 1%Z)
         (intersected st crystal2) obs_refs2
    /\ forall i ref, (obs_refs1 ++ obs_refs2) !! i = Some ref ->
         ref.(Reflection.crystal)
         = if decide (i < length obs_refs1) then 0%Z else 1%Z.
Proof.
  destruct (generate_reflections_returns st) as [out Hrun].
  eexists _, _, _. split; [exact Hrun|].
  split; [|split].
  - apply Forall2_fmap_r, Forall_Forall2_diag, Forall_true. done.
  - apply Forall2_fmap_r, Forall_Forall2_diag, Forall_true. done.
  - intros i ref Hi. case_decide as Hlt.
    + rewrite lookup_app_l in Hi by done.
      apply list_lookup_fmap_Some in Hi as (r & -> & _). done.
    + rewrite lookup_app_r in Hi by lia.
      apply list_lookup_fmap_Some in Hi as (r & -> & _). done.
Qed.

End Observations.

(** ** Parameter shifts and their undoing (lines 134-168, 251-256) *)

Lemma num_free_set vals p : num_free (set_param_vals vals p) = num_free p.
Proof.
  unfold num_free. revert vals.
  induction p as [|[v f] p IH]; intros vals; simpl; [done|].
  destruct f; simpl; [apply IH|].
  destruct vals as [|w vals]; simpl; [done|]. by rewrite IH.
Qed.

(** Reading after writing gives what was written, one value per free
    parameter. *)
Lemma get_set_param_vals vals p :
  length vals = num_free p ->
  get_param_vals (set_param_vals vals p) = vals.
Proof.
  unfold get_param_vals, num_free. revert vals.
  induction p as [|[v f] p IH]; intros vals; simpl.
  - by destruct vals.
  - destruct f; simpl; [apply IH|].
    destruct vals as [|w vals]; simpl; [done|].
    intros [= Hlen]. by rewrite IH.
Qed.

(** Writing back what was read before a write restores the object. *)
Lemma set_get_param_vals vals p :
  set_param_vals (get_param_vals p) (set_param_vals vals p) = p.
Proof.
  unfold get_param_vals. revert vals.
  induction p as [|[v f] p IH]; intros vals; simpl; [done|].
  destruct f; simpl.
  - by rewrite IH.
  - destruct vals as [|w vals]; simpl.
    + f_equal. clear IH. induction p as [|[v' f'] p IH]; simpl; [done|].
      destruct f'; simpl; by rewrite IH.
    + by rewrite IH.
Qed.

Lemma set_param_vals_idem p :
  set_param_vals (get_param_vals p) p = p.
Proof.
  unfold get_param_vals.
  induction p as [|[v' f'] p IH]; simpl; [done|].
  destruct f'; simpl; by rewrite IH.
Qed.

Lemma length_zip_add xs ys :
  length xs <= length ys -> length (zip_add xs ys) = length xs.
Proof. unfold zip_add. rewrite length_zip_with. lia. Qed.

Ltac store_simpl :=
  repeat (rewrite fn_lookup_insert || rewrite fn_lookup_insert_ne by done).

Section Shifts.
Context `{Library}.

Lemma shift_beam_inv st out st1 s0 :
  shift_beam st = (out, inr (st1, s0)) ->
  exists x rest,
    get_param_vals (st s0_param) = x :: rest
    /\ st1 = call_set_param_vals s0_param ((x + 2)%float :: rest) st
    /\ s0 = x :: rest /\ out = [].
Proof.
  unfold shift_beam.
  intros (o1 & x & o2 & [-> Hx]%getitem_ok & Hk & ->)%bind_ok.
  apply bind_ok in Hk as (o3 & p & o4 & (-> & _ & ->)%setitem_ok & Hk & ->).
  apply mret_ok in Hk as [-> [= <- <-]].
  destruct (get_param_vals (st s0_param)) as [|y rest]; [done|].
  injection Hx as ->. by exists x, rest.
Qed.

Lemma rotate_crystals_eq st :
  rotate_crystals st
  = ([], inr (call_set_param_vals xl2o_param
                (zip_add (get_param_vals (st xl2o_param)) [2; 2; 2]%float)
                (call_set_param_vals xl1o_param
                   (zip_add (get_param_vals (st xl1o_param)) [2; 2; 2]%float)
                   st),
              [get_param_vals (st xl1o_param);
               get_param_vals (st xl2o_param)])).
Proof.
  unfold rotate_crystals, call_set_param_vals. simpl. by store_simpl.
Qed.

Lemma change_unit_cells_eq st :
  exists X1 X2,
    change_unit_cells st
    = ([], inr (call_set_param_vals xl2uc_param X2
                  (call_set_param_vals xl1uc_param X1 st),
                [get_param_vals (st xl1uc_param);
                 get_param_vals (st xl2uc_param)])).
Proof.
  unfold change_unit_cells, call_set_param_vals. simpl. store_simpl.
  by eexists _, _.
Qed.

(** What a completed run of the shifts has done. *)
Lemma apply_shifts_inv st out st1 sv :
  apply_shifts st = (out, inr (st1, sv)) ->
  exists x rest X1 X2,
    get_param_vals (st s0_param) = x :: rest
    /\ st1 det_param
       = set_param_vals
           (zip_add (get_param_vals (st det_param)) [2; 2; 2; 5; 5; 5]%float)
           (st det_param)
    /\ st1 s0_param = set_param_vals ((x + 2)%float :: rest) (st s0_param)
    /\ st1 xl1o_param
       = set_param_vals
           (zip_add (get_param_vals (st xl1o_param)) [2; 2; 2]%float)
           (st xl1o_param)
    /\ st1 xl2o_param
       = set_param_vals
           (zip_add (get_param_vals (st xl2o_param)) [2; 2; 2]%float)
           (st xl2o_param)
    /\ st1 xl1uc_param = set_param_vals X1 (st xl1uc_param)
    /\ st1 xl2uc_param = set_param_vals X2 (st xl2uc_param)
    /\ sv = {| det_p_vals := get_param_vals (st det_param);
               s0_p_vals := get_param_vals (st s0_param);
               xlo_p_vals := [get_param_vals (st xl1o_param);
                              get_param_vals (st xl2o_param)];
               xluc_p_vals := [get_param_vals (st xl1uc_param);
                               get_param_vals (st xl2uc_param)] |}
    /\ out = [].
Proof.
  unfold apply_shifts, shift_detector.
  intros (o1 & [sta s0] & o2 & Hbeam & Hk & ->)%bind_ok.
  apply shift_beam_inv in Hbeam as (x & rest & Hs0 & -> & -> & ->).
  rewrite rotate_crystals_eq in Hk.
  apply bind_ok in Hk as (o3 & [stb xlo] & o4 & [= <- <- <-] & Hk & ->).
  match type of Hk with context [change_unit_cells ?s] =>
    destruct (change_unit_cells_eq s) as (X1 & X2 & Huc) end.
  rewrite Huc in Hk.
  apply bind_ok in Hk as (o5 & [stc xluc] & o6 & [= <- <- <-] & Hk & ->).
  apply mret_ok in Hk as [-> [= <- <-]].
  unfold call_set_param_vals in *. revert Hs0. store_simpl. intros Hs0.
  exists x, rest, X1, X2. rewrite Hs0. by repeat split.
Qed.

(** C7: the shifts are fixed offsets added to the values read through
    [get_param_vals]: (2, 2, 2, 5, 5, 5) on the six detector parameters,
    2 on the first free beam parameter alone, (2, 2, 2) on the three
    orientation parameters of either crystal; the values read are the ones
    kept for the undoing. *)
Theorem shifts_are_fixed_offsets st out st1 sv :
  num_free (st det_param) = 6 ->
  num_free (st xl1o_param) = 3 ->
  num_free (st xl2o_param) = 3 ->
  apply_shifts st = (out, inr (st1, sv)) ->
  get_param_vals (st1 det_param)
  = zip_add (get_param_vals (st det_param)) [2; 2; 2; 5; 5; 5]%float
  /\ (exists x rest,
        get_param_vals (st s0_param) = x :: rest
        /\ get_param_vals (st1 s0_param) = (x + 2)%float :: rest)
  /\ get_param_vals (st1 xl1o_param)
     = zip_add (get_param_vals (st xl1o_param)) [2; 2; 2]%float
  /\ get_param_vals (st1 xl2o_param)
     = zip_add (get_param_vals (st xl2o_param)) [2; 2; 2]%float
  /\ det_p_vals sv = get_param_vals (st det_param)
  /\ s0_p_vals sv = get_param_vals (st s0_param)
  /\ xlo_p_vals sv = [get_param_vals (st xl1o_param);
                      get_param_vals (st xl2o_param)].
Proof.
  intros Hdet Hxl1 Hxl2
    (x & rest & X1 & X2 & Hs0 & Hd & Hb & H1 & H2 & _ & _ & -> & _)%apply_shifts_inv.
  assert (Hlen : forall p, length (get_param_vals p) = num_free p).
  { intros p. unfold get_param_vals, num_free. by rewrite length_map. }
  rewrite Hd, Hb, H1, H2.
  rewrite !get_set_param_vals.
  - repeat split; eauto.
  - rewrite length_zip_add; rewrite Hlen, Hxl2; simpl; lia.
  - rewrite length_zip_add; rewrite Hlen, Hxl1; simpl; lia.
  - by rewrite <- Hlen, Hs0.
  - rewrite length_zip_add; rewrite Hlen, Hdet; simpl; lia.
Qed.

(** C4: once the shifts have been applied, the undoing completes and
    leaves every parameterisation as it was before the shifts; so
    [get_param_vals] returns the vector it returned then. *)
Theorem undo_restores_parameters st out st1 sv :
  apply_shifts st = (out, inr (st1, sv)) ->
  exists st2,
    undo_shifts sv st1 = ([], inr st2)
    /\ forall x,
         st2 x = st x
         /\ get_param_vals (st2 x) = get_param_vals (st x).
Proof.
  intros (x & rest & X1 & X2 & Hs0 & Hd & Hb & H1 & H2 & Hu1 & Hu2 & -> & _)%apply_shifts_inv.
  unfold undo_shifts, call_set_param_vals. simpl.
  eexists. split; [reflexivity|].
  intros y. match goal with |- ?a = _ /\ _ => cut (a = st y) end.
  { by intros ->. }
  rewrite Hs0.
  destruct y; store_simpl;
    rewrite ?Hd, ?Hb, ?H1, ?H2, ?Hu1, ?Hu2, <- ?Hs0;
    apply set_get_param_vals.
Qed.

End Shifts.

(** ** The copy handed to the old classes (lines 262-267, 327) *)

Lemma mutate_other f l l' (h : heap) :
  l <> l' -> mutate f l h !! l' = h !! l'.
Proof. intros Hne. unfold mutate. by rewrite lookup_alter_ne. Qed.

Lemma mutate_same f l (h : heap) t :
  h !! l = Some t -> mutate f l h !! l = Some (f t).
Proof. intros Hl. unfold mutate. by rewrite lookup_alter_eq, Hl. Qed.

Lemma mutate_steps_other steps l l' (h : heap) :
  l <> l' ->
  foldl (fun h f => mutate f l h) h steps !! l' = h !! l'.
Proof.
  intros Hne. revert h. induction steps as [|f steps IH]; intros h; simpl.
  - done.
  - by rewrite IH, mutate_other.
Qed.

Lemma mutate_steps_same steps l (h : heap) t :
  h !! l = Some t ->
  foldl (fun h f => mutate f l h) h steps !! l
  = Some (foldl (fun t f => f t) t steps).
Proof.
  revert h t. induction steps as [|f steps IH]; intros h t Hl; simpl.
  - done.
  - apply IH. by apply mutate_same.
Qed.

Lemma alloc_fresh t (h : heap) l h' :
  alloc t h = (l, h') -> h !! l = None /\ h' = <[l := t]> h.
Proof.
  unfold alloc. intros [= <- <-]. split; [|done].
  apply not_elem_of_dom, is_fresh.
Qed.

Section Copy.
Context `{Library}.

(** C9: [old_reflections] is another object than [reflections], with the
    contents the table had before the new classes saw it.  Whatever the
    new classes do to [reflections] (which they do change), the object
    [old_reflections] keeps those contents, and they are what the old
    reflection manager is built from. *)
Theorem old_reflections_untouched st obs_refs :
  exists reflections old_reflections h,
    make_tables obs_refs = (reflections, old_reflections, h)
    /\ reflections <> old_reflections
    /\ h !! reflections = Some (to_table obs_refs)
    /\ h !! old_reflections = Some (to_table obs_refs)
    /\ exists h' matches g,
         run_new_pipeline st reflections h = (h', matches, g)
         /\ h' !! reflections
            = Some (foldl (fun t f => f t) (to_table obs_refs)
                          (new_pipeline_steps st))
         /\ h' !! old_reflections = Some (to_table obs_refs)
         /\ run_old_pipeline st old_reflections h'
            = old_get_matches st (to_table obs_refs).
Proof.
  unfold make_tables, deepcopy.
  destruct (alloc (to_table obs_refs) ∅) as [l0 h0] eqn:Ha0.
  apply alloc_fresh in Ha0 as [_ ->].
  rewrite lookup_total_insert_eq.
  destruct (alloc (to_table obs_refs) (<[l0:=to_table obs_refs]> ∅))
    as [l1 h1] eqn:Ha1.
  apply alloc_fresh in Ha1 as [Hfresh ->].
  assert (l0 <> l1) as Hne.
  { intros <-. by rewrite lookup_insert_eq in Hfresh. }
  exists l0, l1, (<[l1:=to_table obs_refs]> (<[l0:=to_table obs_refs]> ∅)).
  split; [done|]. split; [done|].
  assert (Hl0 : (<[l1:=to_table obs_refs]> (<[l0:=to_table obs_refs]> ∅) : heap)
                !! l0 = Some (to_table obs_refs)).
  { rewrite lookup_insert_ne by done. by rewrite lookup_insert_eq. }
  split; [done|]. split; [by rewrite lookup_insert_eq|].
  unfold run_new_pipeline, run_old_pipeline. eexists _, _, _.
  split; [reflexivity|].
  split; [by apply mutate_steps_same|].
  assert (Hl1 : foldl (fun h f => mutate f l0 h)
                  (<[l1:=to_table obs_refs]> (<[l0:=to_table obs_refs]> ∅))
                  (new_pipeline_steps st) !! l1 = Some (to_table obs_refs)).
  { rewrite mutate_steps_other by done. by rewrite lookup_insert_eq. }
  split; [done|].
  by rewrite (lookup_total_correct _ _ _ Hl1).
Qed.

End Copy.

(** ** Sorting (lines 340-346) *)

Section Sorted.
Context {A K : Type} (ltb : K -> K -> bool) (key : A -> K).

Lemma insert_sorted_perm x l : insert_sorted ltb key x l ≡ₚ x :: l.
Proof.
  induction l as [|y l IH]; simpl; [done|].
  destruct (ltb (key y) (key x)); [|done].
  rewrite IH. apply Permutation_swap.
Qed.

Lemma sorted_perm l : sorted ltb key l ≡ₚ l.
Proof.
  unfold sorted. induction l as [|x l IH]; simpl; [done|].
  by rewrite insert_sorted_perm, IH.
Qed.

Lemma length_sorted l : length (sorted ltb key l) = length l.
Proof. by rewrite sorted_perm. Qed.

Hypothesis ltb_asym : forall a b, ltb a b = true -> ltb b a = false.

Lemma insert_sorted_ascending x l :
  Sorted (ascending ltb key) l -> Sorted (ascending ltb key) (insert_sorted ltb key x l).
Proof.
  induction 1 as [|y l Hl IH Hhd]; simpl.
  - repeat constructor.
  - destruct (ltb (key y) (key x)) eqn:Hyx.
    + constructor; [done|].
      destruct Hhd as [|z l Hyz]; simpl.
      * constructor. by apply ltb_asym.
      * destruct (ltb (key z) (key x)); constructor; [done|].
        by apply ltb_asym.
    + repeat constructor; done.
Qed.

Lemma sorted_ascending l : Sorted (ascending ltb key) (sorted ltb key l).
Proof.
  unfold sorted. induction l as [|x l IH]; simpl; [constructor|].
  by apply insert_sorted_ascending.
Qed.

End Sorted.

Section TakeRows.
Context {A : Type}.
Implicit Types (l : list A) (idx : list nat).

Lemma take_rows_nil l : take_rows [] l = [].
Proof. done. Qed.

Lemma take_rows_cons i idx l x :
  l !! i = Some x -> take_rows (i :: idx) l = x :: take_rows idx l.
Proof. intros Hi. unfold take_rows. simpl. by rewrite Hi. Qed.

Lemma take_rows_app idx1 idx2 l :
  take_rows (idx1 ++ idx2) l = take_rows idx1 l ++ take_rows idx2 l.
Proof. unfold take_rows. apply omap_app. Qed.

Lemma take_rows_in_range idx l :
  Forall (fun i => i < length l) idx ->
  length (take_rows idx l) = length idx
  /\ forall i r, idx !! i = Some r -> take_rows idx l !! i = l !! r.
Proof.
  induction 1 as [|r idx Hr _ [IHlen IH]]; [done|].
  destruct (lookup_lt_is_Some_2 l r Hr) as [x Hx].
  rewrite (take_rows_cons _ _ _ _ Hx). split; [simpl; by rewrite IHlen|].
  intros [|i] r'; simpl; [by intros [= <-]|apply IH].
Qed.

Lemma take_rows_pairs (ps : list (nat * A)) l :
  Forall (fun p => l !! p.1 = Some p.2) ps ->
  take_rows (ps.*1) l = ps.*2.
Proof.
  induction 1 as [|[i x] ps Hp _ IH]; [done|].
  rewrite !fmap_cons. simpl in Hp. simpl fst. simpl snd.
  by rewrite (take_rows_cons _ _ _ _ Hp), IH.
Qed.

Lemma take_rows_all_from l1 l :
  take_rows (seq (length l1) (length l)) (l1 ++ l) = l.
Proof.
  revert l1. induction l as [|x l IH]; intros l1; [done|].
  change (seq (length l1) (length (x :: l)))
    with (length l1 :: seq (S (length l1)) (length l)).
  rewrite (take_rows_cons _ _ _ x) by by apply list_lookup_middle.
  f_equal. specialize (IH (l1 ++ [x])).
  by rewrite length_app, Nat.add_1_r, <- app_assoc in IH.
Qed.

Lemma take_rows_all l : take_rows (range (length l)) l = l.
Proof. apply (take_rows_all_from []). Qed.

Lemma take_rows_perm idx l :
  idx ≡ₚ range (length l) -> take_rows idx l ≡ₚ l.
Proof.
  intros Hp. rewrite <- (take_rows_all l) at 2.
  unfold take_rows. by rewrite Hp.
Qed.

End TakeRows.

Lemma take_rows_range idx n :
  Forall (fun i => i < n) idx -> take_rows idx (range n) = idx.
Proof.
  induction 1 as [|r idx Hr _ IH]; [done|].
  rewrite (take_rows_cons _ _ _ r); [by rewrite IH|].
  unfold range. by rewrite lookup_seq_lt.
Qed.

Lemma insert_sorted_fmap {A B K} (ltb : K -> K -> bool)
    (key1 : A -> K) (key2 : B -> K) (f : A -> B) x l :
  (forall x, key1 x = key2 (f x)) ->
  f <$> insert_sorted ltb key1 x l = insert_sorted ltb key2 (f x) (f <$> l).
Proof.
  intros Hkey. induction l as [|y l IH]; [done|]. csimpl.
  rewrite <- !Hkey. destruct (ltb (key1 y) (key1 x)); csimpl; by rewrite ?IH.
Qed.

Lemma sorted_fmap {A B K} (ltb : K -> K -> bool)
    (key1 : A -> K) (key2 : B -> K) (f : A -> B) l :
  (forall x, key1 x = key2 (f x)) ->
  f <$> sorted ltb key1 l = sorted ltb key2 (f <$> l).
Proof.
  intros Hkey. unfold sorted. induction l as [|x l IH]; [done|]. csimpl.
  by rewrite (insert_sorted_fmap ltb key1 key2), IH.
Qed.

Section Argsort.
Context {K : Type} (ltb : K -> K -> bool).
Implicit Types keys : list K.

Lemma indexed_lookup keys :
  Forall (fun p => keys !! p.1 = Some p.2)
         (zip (range (length keys)) keys).
Proof.
  apply Forall_lookup. intros j [i k] Hj.
  apply lookup_zip_Some in Hj as [Hi Hk].
  apply lookup_seq in Hi as [-> _]. done.
Qed.

(** The permutation is one of the row numbers. *)
Lemma argsort_perm keys : argsort ltb keys ≡ₚ range (length keys).
Proof.
  unfold argsort. rewrite sorted_perm, fst_zip; [done|].
  unfold range. by rewrite length_seq.
Qed.

Lemma argsort_in_range keys :
  Forall (fun i => i < length keys) (argsort ltb keys).
Proof.
  rewrite argsort_perm. apply Forall_seq. intros; lia.
Qed.

Lemma length_argsort keys : length (argsort ltb keys) = length keys.
Proof. rewrite argsort_perm. unfold range. apply length_seq. Qed.

(** The keys taken in the order of the permutation are the sorted keys. *)
Lemma take_rows_argsort keys :
  take_rows (argsort ltb keys) keys = sorted ltb id keys.
Proof.
  unfold argsort. rewrite take_rows_pairs.
  - rewrite (sorted_fmap ltb snd id snd) by done.
    rewrite snd_zip; [done|]. unfold range. by rewrite length_seq.
  - rewrite sorted_perm. apply indexed_lookup.
Qed.

Lemma take_rows_argsort_ascending keys :
  (forall a b, ltb a b = true -> ltb b a = false) ->
  Sorted (ascending ltb id) (take_rows (argsort ltb keys) keys).
Proof. intros Hasym. rewrite take_rows_argsort. by apply sorted_ascending. Qed.

End Argsort.

(** Floats: [<] is asymmetric, and for two floats neither of which is a NaN
    [not (b < a)] is [a <= b]. *)
Lemma SFcompare_antisym x y :
  SFcompare y x = CompOpp <$> SFcompare x y.
Proof.
  destruct x as [sx|sx| |sx mx ex], y as [sy|sy| |sy my ey]; simpl;
    try done; try (by destruct sx); try (by destruct sy);
    try (by destruct sx, sy).
  f_equal. rewrite (Z.compare_antisym ex ey).
  assert (Pos.compare_cont Eq my mx = CompOpp (Pos.compare_cont Eq mx my))
    as -> by (by rewrite Pos.compare_cont_antisym).
  destruct sx, sy, (ex ?= ey)%Z; simpl; by rewrite ?CompOpp_involutive.
Qed.

Lemma float_ltb_asym (a b : float) :
  (a <? b)%float = true -> (b <? a)%float = false.
Proof.
  rewrite !FloatAxioms.ltb_spec. unfold SFltb.
  rewrite (SFcompare_antisym (Prim2SF a) (Prim2SF b)).
  by destruct (SFcompare (Prim2SF a) (Prim2SF b)) as [[]|].
Qed.

Lemma is_nan_false (a : float) :
  is_nan a = false -> Prim2SF a <> S754_nan.
Proof.
  unfold is_nan. rewrite FloatAxioms.eqb_spec. unfold SFeqb.
  intros Hnan Ha. rewrite Ha in Hnan. done.
Qed.

Lemma float_not_ltb_leb (a b : float) :
  is_nan a = false -> is_nan b = false ->
  (b <? a)%float = false -> (a <=? b)%float = true.
Proof.
  intros Ha%is_nan_false Hb%is_nan_false.
  rewrite FloatAxioms.ltb_spec, FloatAxioms.leb_spec. unfold SFltb, SFleb.
  rewrite (SFcompare_antisym (Prim2SF a) (Prim2SF b)).
  destruct (SFcompare (Prim2SF a) (Prim2SF b)) as [[]|] eqn:Hc; try done.
  destruct (Prim2SF a), (Prim2SF b); simpl in Hc; try done;
    repeat case_match; done.
Qed.

Lemma ascending_leb {A} (key : A -> float) (l : list A) :
  Forall (fun x => is_nan (key x) = false) l ->
  Sorted (ascending PrimFloat.ltb key) l ->
  Sorted (fun x y => (key x <=? key y)%float = true) l.
Proof.
  intros Hnan Hs. induction Hs as [|x l Hl IH Hhd]; [constructor|].
  inversion_clear Hnan as [|? ? Hx Hnan']. constructor; [by apply IH|].
  destruct Hhd as [|y l Hxy]; constructor.
  inversion_clear Hnan' as [|? ? Hy _]. by apply float_not_ltb_leb.
Qed.

(** ** Tables and gradient arrays *)

Lemma select_from {A} (a : list A) idx acc out r :
  for_each idx (fun i acc => x ← getitem a i; mret (acc ++ [x])) acc
  = (out, inr r) <->
  out = [] /\ Forall (fun i => i < length a) idx
  /\ r = acc ++ take_rows idx a.
Proof.
  revert acc out. induction idx as [|i idx IH]; intros acc out;
    cbn [for_each].
  - unfold ret. rewrite take_rows_nil, app_nil_r. naive_solver.
  - rewrite bind_ok. split.
    + intros (o1 & acc' & o2 & Hx & Hrest & ->).
      apply bind_ok in Hx as (o3 & x & o4 & [-> Hx]%getitem_ok & Hacc & ->).
      apply mret_ok in Hacc as [-> <-].
      apply IH in Hrest as (-> & Hidx & ->).
      split; [done|]. split.
      * constructor; [by eapply lookup_lt_Some|done].
      * rewrite (take_rows_cons _ _ _ _ Hx). by rewrite <- app_assoc.
    + intros (-> & Hidx & ->). inversion_clear Hidx as [|? ? Hi Hidx'].
      destruct (lookup_lt_is_Some_2 _ _ Hi) as [x Hx].
      exists [], (acc ++ [x]), []. split; [|split; [|done]].
      * apply bind_ok. exists [], x, []. split; [by apply getitem_ok|done].
      * apply IH. split; [done|]. split; [done|].
        rewrite (take_rows_cons _ _ _ _ Hx). by rewrite <- app_assoc.
Qed.

Lemma select_ok {A} (a : list A) idx out r :
  select a idx = (out, inr r) <->
  out = [] /\ Forall (fun i => i < length a) idx /\ r = take_rows idx a.
Proof. unfold select. by rewrite select_from. Qed.

Lemma select_from_err {A} (a : list A) idx acc out e :
  for_each idx (fun i acc => x ← getitem a i; mret (acc ++ [x])) acc
  = (out, inl e) ->
  out = [] /\ e = IndexError.
Proof.
  revert out acc.
  induction idx as [|i idx IH]; intros out acc; cbn [for_each]; [done|].
  intros [Hx|(o1 & acc' & o2 & Hx & Hrest & ->)]%bind_err.
  - apply bind_err in Hx as [(-> & _ & ->)%getitem_err|Hx]; [done|].
    destruct Hx as (? & ? & ? & _ & [=] & _).
  - apply bind_ok in Hx as (o3 & x & o4 & [-> _]%getitem_ok & Hacc & ->).
    apply mret_ok in Hacc as [-> _]. by apply IH in Hrest as [-> ->].
Qed.

Lemma select_err {A} (a : list A) idx out e :
  select a idx = (out, inl e) -> out = [] /\ e = IndexError.
Proof. apply select_from_err. Qed.

Lemma getcol_ok t name out c :
  getcol t name = (out, inr c) <-> out = [] /\ columns t !! name = Some c.
Proof.
  unfold getcol, raise, mret, M_ret, ret.
  destruct (columns t !! name); naive_solver.
Qed.

Lemma getcol_err t name out e :
  getcol t name = (out, inl e) <->
  out = [] /\ columns t !! name = None /\ e = KeyError.
Proof.
  unfold getcol, raise, mret, M_ret, ret.
  destruct (columns t !! name); naive_solver.
Qed.

Lemma sort_ok t name out t' :
  sort t name = (out, inr t') <->
  out = []
  /\ exists c, columns t !! name = Some c
               /\ t' = reorder (sort_permutation c) t.
Proof.
  unfold sort. rewrite bind_ok. split.
  - intros (o1 & c & o2 & [-> Hc]%getcol_ok & [-> <-]%mret_ok & ->). eauto.
  - intros (-> & c & Hc & ->). exists [], c, [].
    split; [by apply getcol_ok|]. split; [by apply mret_ok|done].
Qed.

Lemma sort_err t name out e :
  sort t name = (out, inl e) ->
  out = [] /\ e = KeyError /\ columns t !! name = None.
Proof.
  unfold sort.
  intros [(-> & ? & ->)%getcol_err|(? & ? & ? & _ & [=] & _)]%bind_err.
  done.
Qed.

Lemma sort_permutation_perm c :
  sort_permutation c ≡ₚ range (column_length c).
Proof. destruct c; apply argsort_perm. Qed.

Lemma sort_permutation_in_range c :
  Forall (fun i => i < column_length c) (sort_permutation c).
Proof. destruct c; apply argsort_in_range. Qed.

Lemma column_length_reorder idx c :
  Forall (fun i => i < column_length c) idx ->
  column_length (reorder_column idx c) = length idx.
Proof. destruct c; simpl; intros Hidx; by apply take_rows_in_range. Qed.

Lemma column_item_reorder idx c i r :
  Forall (fun i => i < column_length c) idx ->
  idx !! i = Some r ->
  column_item (reorder_column idx c) i = column_item c r.
Proof.
  destruct c; simpl; intros Hidx Hi;
    by rewrite (proj2 (take_rows_in_range _ _ Hidx) _ _ Hi).
Qed.

Lemma attach_columns_ok matches g out new_matches :
  attach_columns matches g = (out, inr new_matches) <->
  out = []
  /\ exists a b c,
       dX_dp g !! 0 = Some a /\ dY_dp g !! 0 = Some b
       /\ dPhi_dp g !! 0 = Some c
       /\ new_matches = attached matches a b c.
Proof.
  unfold attach_columns. split.
  - intros (o1 & a & o2 & [-> Ha]%getitem_ok & Hk & ->)%bind_ok.
    apply bind_ok in Hk as (o3 & b & o4 & [-> Hb]%getitem_ok & Hk & ->).
    apply bind_ok in Hk as (o5 & c & o6 & [-> Hc]%getitem_ok & Hk & ->).
    apply mret_ok in Hk as [-> <-]. split; [done|]. by exists a, b, c.
  - intros (-> & a & b & c & Ha & Hb & Hc & ->).
    unfold getitem. by rewrite Ha, Hb, Hc.
Qed.

Lemma attach_columns_err matches g out e :
  attach_columns matches g = (out, inl e) -> out = [] /\ e = IndexError.
Proof.
  unfold attach_columns, getitem.
  destruct (dX_dp g !! 0); [|by intros [= <- <-]].
  destruct (dY_dp g !! 0); [|by intros [= <- <-]].
  destruct (dPhi_dp g !! 0); [|by intros [= <- <-]].
  done.
Qed.

(** Inversion of a run, statement by statement. *)
Ltac run_inv :=
  repeat match goal with
  | H : (_ ≫= _) = (_, inr _) |- _ =>
      let H1 := fresh "Hstep" in
      apply bind_ok in H as (? & ? & ? & H1 & H & ->)
  | H : (_ ≫= _) = (_, inl _) |- _ =>
      let H1 := fresh "Hstep" in
      apply bind_err in H as [H|(? & ? & ? & H1 & H & ->)]
  | H : getitem _ _ = (_, inr _) |- _ => apply getitem_ok in H as [-> H]
  | H : getitem _ _ = (_, inl _) |- _ => apply getitem_err in H as (-> & H & ->)
  | H : setitem _ _ _ = (_, inr _) |- _ =>
      apply setitem_ok in H as (-> & H & ->)
  | H : setitem _ _ _ = (_, inl _) |- _ =>
      apply setitem_err in H as (-> & H & ->)
  | H : select _ _ = (_, inr _) |- _ => apply select_ok in H as (-> & H & ->)
  | H : select _ _ = (_, inl _) |- _ => apply select_err in H as (-> & ->)
  | H : getcol _ _ = (_, inr _) |- _ => apply getcol_ok in H as [-> H]
  | H : getcol _ _ = (_, inl _) |- _ => apply getcol_err in H as (-> & H & ->)
  | H : mret _ = (_, inr _) |- _ => apply mret_ok in H as [-> H]
  | H : mret _ = (_, inl _) |- _ => discriminate H
  | H : assert _ = (_, inr _) |- _ => apply assert_ok in H as [-> H]
  | H : assert _ = (_, inl _) |- _ => apply assert_err in H as (-> & H & ->)
  | H : print _ = (_, inr _) |- _ => apply print_ok in H as ->
  | H : print _ = (_, inl _) |- _ => discriminate H
  | H : context [match ?x with (_, _) => _ end] |- _ => is_var x; destruct x
  | H : raise _ = (_, inr _) |- _ => discriminate H
  | H : raise _ = (_, inl _) |- _ => injection H as <- <-
  end.

Lemma order_column_ok new_matches out order :
  order_column new_matches = (out, inr order) <->
  out = [] /\ columns new_matches !! "order" = Some (CSizeT order).
Proof.
  unfold order_column. split.
  - intros H. run_inv. by destruct x0; run_inv; simplify_eq.
  - intros [-> Hc]. unfold getcol. by rewrite Hc.
Qed.

Lemma order_column_err new_matches out e :
  order_column new_matches = (out, inl e) ->
  out = [] /\ (e = KeyError \/ e = TypeError).
Proof.
  unfold order_column. intros H. run_inv; [auto|].
  destruct x0; run_inv; auto.
Qed.

Lemma select_gradient_ok new_matches i g out g' :
  select_gradient new_matches i g = (out, inr g') ->
  out = []
  /\ exists order a b c,
       order_column new_matches = ([], inr order)
       /\ dX_dp g !! i = Some a /\ dY_dp g !! i = Some b
       /\ dPhi_dp g !! i = Some c
       /\ Forall (fun r => r < length a) order
       /\ Forall (fun r => r < length b) order
       /\ Forall (fun r => r < length c) order
       /\ g' = selected order i g a b c.
Proof.
  unfold select_gradient. intros H. run_inv.
  repeat match goal with
  | H : order_column _ = _ |- _ => apply order_column_ok in H as [-> H]
  end.
  simplify_eq. split; [done|].
  eexists _, _, _, _. split; [by apply order_column_ok|].
  repeat split; eauto.
Qed.

Lemma select_gradient_err new_matches i g out e :
  select_gradient new_matches i g = (out, inl e) ->
  out = [] /\ (e = IndexError \/ e = KeyError \/ e = TypeError).
Proof.
  unfold select_gradient. intros H. run_inv;
    repeat match goal with
    | H : order_column _ = (_, inr _) |- _ =>
        apply order_column_ok in H as [-> H]
    | H : order_column _ = (_, inl _) |- _ =>
        apply order_column_err in H as [-> [-> | ->]]
    end; auto.
Qed.

(** The loop of lines 342-345, run over the parameters from [s] on. *)
Lemma select_gradients_from new_matches k s g out g' :
  for_each (seq s k) (select_gradient new_matches) g = (out, inr g') ->
  out = []
  /\ length (dX_dp g') = length (dX_dp g)
  /\ length (dY_dp g') = length (dY_dp g)
  /\ length (dPhi_dp g') = length (dPhi_dp g)
  /\ (forall j, j < s \/ s + k <= j ->
        dX_dp g' !! j = dX_dp g !! j /\ dY_dp g' !! j = dY_dp g !! j
        /\ dPhi_dp g' !! j = dPhi_dp g !! j)
  /\ (forall j, s <= j < s + k ->
        exists order a b c,
          order_column new_matches = ([], inr order)
          /\ dX_dp g !! j = Some a /\ dY_dp g !! j = Some b
          /\ dPhi_dp g !! j = Some c
          /\ Forall (fun r => r < length a) order
          /\ Forall (fun r => r < length b) order
          /\ Forall (fun r => r < length c) order
          /\ dX_dp g' !! j = Some (take_rows order a)
          /\ dY_dp g' !! j = Some (take_rows order b)
          /\ dPhi_dp g' !! j = Some (take_rows order c)).
Proof.
  revert s g out. induction k as [|k IH]; intros s g out; cbn [seq for_each].
  - intros [= <- <-]. repeat split; intros; lia.
  - intros (o1 & g1 & o2 & Hbody & Hrest & ->)%bind_ok.
    apply select_gradient_ok in Hbody
      as (-> & order & a & b & c & Hord & Ha & Hb & Hc & Fa & Fb & Fc & ->).
    apply IH in Hrest
      as (-> & HlX & HlY & HlPhi & Hout & Hin).
    unfold selected in *. simpl in *. rewrite !length_insert in *.
    pose proof (lookup_lt_Some _ _ _ Ha) as Hsa.
    pose proof (lookup_lt_Some _ _ _ Hb) as Hsb.
    pose proof (lookup_lt_Some _ _ _ Hc) as Hsc.
    split; [done|]. do 3 (split; [done|]). split.
    + intros j Hj. destruct (Hout j) as (-> & -> & ->); [lia|].
      rewrite !list_lookup_insert_ne by lia. done.
    + intros j Hj. destruct (decide (j = s)) as [->|Hne].
      * destruct (Hout s) as (HX & HY & HPhi); [lia|].
        rewrite HX, HY, HPhi, !list_lookup_insert_eq by done.
        exists order, a, b, c. done.
      * destruct (Hin j) as (order' & a' & b' & c' & Hord' & Ha' & Hb' & Hc'
                               & rest); [lia|].
        rewrite list_lookup_insert_ne in Ha', Hb', Hc' by done.
        exists order', a', b', c'. done.
Qed.

Lemma for_each_err_silent {A S} (xs : list A) (body : A -> S -> M S)
    (P : exn -> Prop) s out e :
  (forall x s o r, body x s = (o, r) ->
     o = [] /\ match r with inl e => P e | inr _ => True end) ->
  for_each xs body s = (out, inl e) -> out = [] /\ P e.
Proof.
  intros Hbody. revert s out.
  induction xs as [|x xs IH]; intros s out; cbn [for_each]; [done|].
  intros [Hx|(o1 & s' & o2 & Hx & Hrest & ->)]%bind_err.
  - by apply Hbody in Hx.
  - apply Hbody in Hx as [-> _]. by apply IH in Hrest as [-> ?].
Qed.

Lemma for_each_ok_silent {A S} (xs : list A) (body : A -> S -> M S)
    s out s' :
  (forall x s o r, body x s = (o, r) -> o = []) ->
  for_each xs body s = (out, inr s') -> out = [].
Proof.
  intros Hbody. revert s out.
  induction xs as [|x xs IH]; intros s out; cbn [for_each].
  - by intros [= <- _].
  - intros (o1 & s1 & o2 & Hx & Hrest & ->)%bind_ok.
    apply Hbody in Hx as ->. by apply IH in Hrest as ->.
Qed.

Lemma select_gradient_silent new_matches i g o r :
  select_gradient new_matches i g = (o, r) ->
  o = [] /\ match r with
            | inl e => e = IndexError \/ e = KeyError \/ e = TypeError
            | inr _ => True
            end.
Proof.
  destruct r as [e|g'].
  - apply select_gradient_err.
  - by intros [-> _]%select_gradient_ok.
Qed.

Lemma select_gradients_err new_matches g out e :
  select_gradients new_matches g = (out, inl e) ->
  out = [] /\ (e = IndexError \/ e = KeyError \/ e = TypeError).
Proof.
  unfold select_gradients.
  apply (for_each_err_silent _ _
           (fun e => e = IndexError \/ e = KeyError \/ e = TypeError)).
  apply select_gradient_silent.
Qed.

(** What a completed sorting has done (lines 340-346). *)
Lemma sort_matches_ok new_matches g old_matches out new_matches' g' old' :
  sort_matches new_matches g old_matches
  = (out, inr (new_matches', g', old')) ->
  out = []
  /\ (exists c, columns new_matches !! "x_resid" = Some c
                /\ new_matches' = reorder (sort_permutation c) new_matches)
  /\ for_each (range (length (dX_dp g))) (select_gradient new_matches') g
     = ([], inr g')
  /\ old' = sorted PrimFloat.ltb ObsPredMatch.x_resid old_matches.
Proof.
  unfold sort_matches.
  intros (o1 & nm & o2 & [-> Hsort]%sort_ok & Hk & ->)%bind_ok.
  apply bind_ok in Hk as (o3 & g1 & o4 & Hsel & Hk & ->).
  apply mret_ok in Hk as [-> [= <- <- <-]].
  pose proof Hsel as (-> & _)%select_gradients_from.
  done.
Qed.

Lemma sort_matches_err new_matches g old_matches out e :
  sort_matches new_matches g old_matches = (out, inl e) ->
  out = [] /\ (e = IndexError \/ e = KeyError \/ e = TypeError).
Proof.
  unfold sort_matches.
  intros [(-> & -> & _)%sort_err
         |(o1 & nm & o2 & [-> _]%sort_ok & Hk & ->)]%bind_err;
    [auto|].
  apply bind_err in Hk as [Hk|(? & ? & ? & _ & [=] & _)].
  by apply select_gradients_err in Hk.
Qed.

(** ** The comparison (lines 348-364) *)

Section Comparison.
Context `{Library}.

Lemma component_at_Some arrays i j x :
  component_at arrays i j = Some x <->
  exists a, arrays !! j = Some a /\ a !! i = Some x.
Proof.
  unfold component_at. destruct (arrays !! j) as [a|]; simpl; naive_solver.
Qed.

Lemma old_gradient_at_Some old_matches i j gj :
  old_gradient_at old_matches i j = Some gj <->
  exists m, old_matches !! i = Some m
            /\ ObsPredMatch.gradients m !! j = Some gj.
Proof.
  unfold old_gradient_at.
  destruct (old_matches !! i) as [m|]; simpl; naive_solver.
Qed.

Lemma test_gradient_ok g old_matches i j out :
  test_gradient g old_matches i j = (out, inr tt) ->
  out = [] /\ agree_at g old_matches i j.
Proof.
  unfold test_gradient. intros Hrun. run_inv. simplify_eq.
  split; [done|]. eexists _, _, _, _.
  rewrite !component_at_Some, old_gradient_at_Some. eauto 20.
Qed.

Lemma test_gradient_err g old_matches i j out e :
  test_gradient g old_matches i j = (out, inl e) ->
  out = []
  /\ (e = IndexError
      \/ (e = AssertionError /\ mismatch_at g old_matches i j)).
Proof.
  unfold test_gradient. intros Hrun.
  run_inv; simplify_eq; (split; [done|]); try (by left); right;
    (split; [done|]); eexists; rewrite old_gradient_at_Some;
    (split; [by eauto|]).
  - left. eexists. rewrite component_at_Some. eauto.
  - right. left. eexists. rewrite component_at_Some. eauto.
  - right. right. eexists. rewrite component_at_Some. eauto.
Qed.

Lemma test_gradient_silent g old_matches i j o r :
  test_gradient g old_matches i j = (o, r) -> o = [].
Proof.
  destruct r as [e|[]].
  - by intros [-> _]%test_gradient_err.
  - by intros [-> _]%test_gradient_ok.
Qed.

Lemma test_row_silent g old_matches i o r :
  for_each (range (length (dX_dp g)))
    (fun j _ => test_gradient g old_matches i j) tt = (o, r) ->
  o = [].
Proof.
  destruct r as [e|[]].
  - intros Hrun.
    apply (for_each_err_silent _ _ (fun _ => True)) in Hrun as [-> _]; [done|].
    intros j [] o' r' ->%test_gradient_silent. by destruct r'.
  - apply for_each_ok_silent. intros j [] o' r'. apply test_gradient_silent.
Qed.

(** A completed comparison loop has seen every pair agree. *)
Lemma test_gradients_ok new_matches g old_matches out :
  test_gradients new_matches g old_matches = (out, inr tt) ->
  out = []
  /\ forall i j, i < len new_matches -> j < length (dX_dp g) ->
       agree_at g old_matches i j.
Proof.
  unfold test_gradients. intros Hrun. split.
  - revert Hrun. apply for_each_ok_silent.
    intros i [] o r. apply test_row_silent.
  - apply for_each_unit_ok in Hrun. intros i j Hi Hj.
    rewrite Forall_lookup in Hrun.
    destruct (Hrun i i) as [o Hrow]; [by apply lookup_seq_lt|].
    apply for_each_unit_ok in Hrow. rewrite Forall_lookup in Hrow.
    destruct (Hrow j j) as [o' Hij]; [by apply lookup_seq_lt|].
    by apply test_gradient_ok in Hij as [_ ?].
Qed.

(** A comparison loop that raises has met an index out of range or a
    pair that does not agree. *)
Lemma test_gradients_err new_matches g old_matches out e :
  test_gradients new_matches g old_matches = (out, inl e) ->
  out = []
  /\ (e = IndexError
      \/ (e = AssertionError
          /\ exists i j, i < len new_matches /\ j < length (dX_dp g)
                         /\ mismatch_at g old_matches i j)).
Proof.
  unfold test_gradients. intros Hrun. split.
  - apply (for_each_err_silent _ _ (fun _ => True)) in Hrun as [-> _]; [done|].
    intros i [] o r ->%test_row_silent. by destruct r.
  - apply for_each_unit_err in Hrun as (i & o & Hi & Hrow).
    apply for_each_unit_err in Hrow as (j & o' & Hj & Hij).
    apply test_gradient_err in Hij as [_ [->|[-> Hmis]]]; [by left|].
    right. split; [done|]. exists i, j.
    apply elem_of_seq in Hi, Hj. repeat split; [lia..|done].
Qed.

Lemma row_item_err t i name out e :
  row_item t i name = (out, inl e) ->
  out = []
  /\ (e = IndexError \/ (e = KeyError /\ columns t !! name = None)).
Proof.
  unfold row_item. case_decide; intros Hrun; run_inv; auto.
  destruct (column_item _ _); run_inv; auto.
Qed.

Lemma row_item_ok t i name out v :
  row_item t i name = (out, inr v) -> out = [].
Proof.
  unfold row_item. case_decide; intros Hrun; run_inv.
  destruct (column_item _ _); by run_inv.
Qed.

Lemma preview_line_out new_matches g old_matches i o r :
  preview_line new_matches g old_matches i = (o, r) ->
  Forall is_preview o
  /\ match r with
     | inl e =>
         e = IndexError
         \/ (e = KeyError /\ columns new_matches !! "miller_index" = None)
     | inr _ => True
     end.
Proof.
  unfold preview_line. destruct r as [e|[]]; intros Hrun; run_inv;
    repeat match goal with
    | H : row_item _ _ _ = (_, inr _) |- _ => apply row_item_ok in H as ->
    | H : row_item _ _ _ = (_, inl _) |- _ =>
        apply row_item_err in H as [-> ?]
    end; simpl; auto.
  repeat constructor.
Qed.

Lemma for_each_unit_out {A} (xs : list A) (f : A -> M unit)
    (P : printed -> Prop) (Q : exn -> Prop) out r :
  (forall x o r, f x = (o, r) ->
     Forall P o /\ match r with inl e => Q e | inr _ => True end) ->
  for_each xs (fun x _ => f x) tt = (out, r) ->
  Forall P out /\ match r with inl e => Q e | inr _ => True end.
Proof.
  intros Hf. revert out. induction xs as [|x xs IH]; intros out;
    cbn [for_each].
  - by intros [= <- <-].
  - destruct r as [e|[]].
    + intros [Hx|(o1 & [] & o2 & Hx & Hrest & ->)]%bind_err.
      * by apply Hf in Hx.
      * apply Hf in Hx as [Ho1 _]. apply IH in Hrest as [Ho2 ?].
        split; [by apply Forall_app|done].
    + intros (o1 & [] & o2 & Hx & Hrest & ->)%bind_ok.
      apply Hf in Hx as [Ho1 _]. apply IH in Hrest as [Ho2 _].
      split; [by apply Forall_app|done].
Qed.

Lemma preview_out new_matches g old_matches out r :
  preview new_matches g old_matches = (out, r) ->
  Forall is_preview out
  /\ match r with
     | inl e =>
         e = IndexError
         \/ (e = KeyError /\ columns new_matches !! "miller_index" = None)
     | inr _ => True
     end.
Proof.
  unfold preview.
  apply (for_each_unit_out _ _ is_preview
           (fun e => e = IndexError
                     \/ (e = KeyError
                         /\ columns new_matches !! "miller_index" = None))).
  intros i o r'. apply preview_line_out.
Qed.

(** The outcomes of the comparison (lines 300-364), one by one. *)
Lemma compare_ok matches g old_matches out :
  compare matches g old_matches = (out, inr tt) ->
  exists new_matches' g' old' po,
    compared matches g old_matches new_matches' g' old'
    /\ preview new_matches' g' old' = (po, inr tt)
    /\ test_gradients new_matches' g' old' = ([], inr tt)
    /\ out = count_new matches :: old_banner old_matches ++ po
             ++ [PStr "TESTING GRADIENTS"; PStr "OK"].
Proof.
  unfold compare. intros Hrun. run_inv.
  repeat match goal with u : () |- _ => destruct u end.
  match goal with H : attach_columns _ _ = _ |- _ =>
    pose proof H as [-> _]%attach_columns_ok end.
  match goal with H : sort_matches _ _ _ = _ |- _ =>
    pose proof H as [-> _]%sort_matches_ok end.
  match goal with H : test_gradients _ _ _ = _ |- _ =>
    pose proof H as [-> _]%test_gradients_ok end.
  eexists _, _, _, _. split; [eexists; split; eassumption|].
  split; [eassumption|]. split; [eassumption|].
  done.
Qed.

Lemma compare_err matches g old_matches out e :
  compare matches g old_matches = (out, inl e) ->
  (attach_columns matches g = ([], inl e) /\ out = [count_new matches])
  \/ exists new_matches,
       attach_columns matches g = ([], inr new_matches)
       /\ ((sort_matches new_matches g old_matches = ([], inl e)
            /\ out = count_new matches :: old_banner old_matches)
           \/ exists new_matches' g' old',
                sort_matches new_matches g old_matches
                = ([], inr (new_matches', g', old'))
                /\ ((exists po,
                       preview new_matches' g' old' = (po, inl e)
                       /\ out = count_new matches :: old_banner old_matches
                                ++ po)
                    \/ exists po,
                         preview new_matches' g' old' = (po, inr tt)
                         /\ test_gradients new_matches' g' old'
                            = ([], inl e)
                         /\ out = count_new matches
                                  :: old_banner old_matches ++ po
                                  ++ [PStr "TESTING GRADIENTS"])).
Proof.
  unfold compare. intros Hrun. run_inv;
    repeat match goal with
    | H : attach_columns _ _ = (_, inr _) |- _ =>
        pose proof H as [-> _]%attach_columns_ok; revert H
    | H : attach_columns _ _ = (_, inl _) |- _ =>
        pose proof H as [-> _]%attach_columns_err; revert H
    | H : sort_matches _ _ _ = (_, inr (_, _, _)) |- _ =>
        pose proof H as [-> _]%sort_matches_ok; revert H
    | H : sort_matches _ _ _ = (_, inr ?x) |- _ => destruct x as [[? ?] ?]
    | H : sort_matches _ _ _ = (_, inl _) |- _ =>
        pose proof H as [-> _]%sort_matches_err; revert H
    | H : test_gradients _ _ _ = (_, inl _) |- _ =>
        pose proof H as [-> _]%test_gradients_err; revert H
    | u : () |- _ => destruct u
    end; intros.
  - left. done.
  - right. eexists. split; [eassumption|]. left. done.
  - right. eexists. split; [eassumption|]. right. eexists _, _, _.
    split; [eassumption|]. left. eexists. split; [eassumption|].
    simpl. done.
  - right. eexists. split; [eassumption|]. right. eexists _, _, _.
    split; [eassumption|]. right. eexists. split; [eassumption|].
    split; [eassumption|]. simpl. by rewrite ?app_nil_r.
Qed.

End Comparison.

(** ** The sorted matches (lines 305-311, 340-346) *)

Lemma attached_other matches a b c name :
  name ∉ attached_names ->
  columns (attached matches a b c) !! name = columns matches !! name.
Proof.
  unfold attached_names. rewrite !not_elem_of_cons. intros (? & ? & ? & ? & _).
  unfold attached, setcol. simpl. by rewrite !lookup_insert_ne.
Qed.

Lemma attached_order matches a b c :
  columns (attached matches a b c) !! "order"
  = Some (CSizeT (range (len matches))).
Proof.
  unfold attached, setcol. simpl.
  rewrite !lookup_insert_ne by done. by rewrite lookup_insert_eq.
Qed.

Lemma reorder_lookup idx t name :
  columns (reorder idx t) !! name = reorder_column idx <$> columns t !! name.
Proof. unfold reorder. simpl. apply lookup_fmap. Qed.

Lemma x_resid_not_attached : "x_resid" ∉ attached_names.
Proof.
  unfold attached_names. rewrite !not_elem_of_cons.
  repeat split; try done. apply not_elem_of_nil.
Qed.

Lemma compared_inv matches g old_matches new_matches' g' old' :
  compared matches g old_matches new_matches' g' old' ->
  exists a b c key,
    dX_dp g !! 0 = Some a /\ dY_dp g !! 0 = Some b /\ dPhi_dp g !! 0 = Some c
    /\ columns matches !! "x_resid" = Some key
    /\ new_matches'
       = reorder (sort_permutation key) (attached matches a b c)
    /\ for_each (range (length (dX_dp g))) (select_gradient new_matches') g
       = ([], inr g')
    /\ old' = sorted PrimFloat.ltb ObsPredMatch.x_resid old_matches.
Proof.
  intros (nm0 & [_ (a & b & c & Ha & Hb & Hc & ->)]%attach_columns_ok
              & (_ & (key & Hkey & ->) & Hsel & ->)%sort_matches_ok).
  rewrite attached_other in Hkey by apply x_resid_not_attached.
  by exists a, b, c, key.
Qed.

(** C6: before the comparison both sets of matches are sorted ascending by
    their x residual, and the gradient arrays are reordered by the
    [order] column of the sorted table, which holds the permutation of the
    sort: row [i] of every gradient array and of every column of the
    sorted table is the row [order[i]] they had before. *)
Theorem sorted_by_x_resid matches g old_matches new_matches' g' old' keys :
  consistent matches ->
  columns matches !! "x_resid" = Some (CDouble keys) ->
  compared matches g old_matches new_matches' g' old' ->
  let order := argsort PrimFloat.ltb keys in
  order ≡ₚ range (len matches)
  /\ columns new_matches' !! "x_resid"
     = Some (CDouble (sorted PrimFloat.ltb id keys))
  /\ Sorted (ascending PrimFloat.ltb id) (sorted PrimFloat.ltb id keys)
  /\ (Forall (fun k => is_nan k = false) keys ->
      Sorted (fun a b => (a <=? b)%float = true)
             (sorted PrimFloat.ltb id keys))
  /\ old' = sorted PrimFloat.ltb ObsPredMatch.x_resid old_matches
  /\ old' ≡ₚ old_matches
  /\ Sorted (ascending PrimFloat.ltb ObsPredMatch.x_resid) old'
  /\ (Forall (fun m => is_nan (ObsPredMatch.x_resid m) = false) old_matches ->
      Sorted (fun a b =>
                (ObsPredMatch.x_resid a <=? ObsPredMatch.x_resid b)%float
                = true) old')
  /\ columns new_matches' !! "order" = Some (CSizeT order)
  /\ length (dX_dp g') = length (dX_dp g)
  /\ (forall j, j < length (dX_dp g) ->
        exists a b c,
          dX_dp g !! j = Some a /\ dY_dp g !! j = Some b
          /\ dPhi_dp g !! j = Some c
          /\ dX_dp g' !! j = Some (take_rows order a)
          /\ dY_dp g' !! j = Some (take_rows order b)
          /\ dPhi_dp g' !! j = Some (take_rows order c))
  /\ (forall i r, order !! i = Some r ->
        (forall name c,
           columns matches !! name = Some c -> name ∉ attached_names ->
           exists c', columns new_matches' !! name = Some c'
                      /\ column_item c' i = column_item c r)
        /\ forall j, j < length (dX_dp g) ->
             component_at (dX_dp g') i j = component_at (dX_dp g) r j
             /\ component_at (dY_dp g') i j = component_at (dY_dp g) r j
             /\ component_at (dPhi_dp g') i j
                = component_at (dPhi_dp g) r j)
  /\ columns new_matches' !! "dX_dp0" = CDouble <$> dX_dp g' !! 0
  /\ columns new_matches' !! "dY_dp0" = CDouble <$> dY_dp g' !! 0
  /\ columns new_matches' !! "dPhi_dp0" = CDouble <$> dPhi_dp g' !! 0.
Proof.
  intros Hcons Hkeys
    (a0 & b0 & c0 & key & Ha0 & Hb0 & Hc0 & Hkey & -> & Hsel & ->)%compared_inv
    order.
  rewrite Hkeys in Hkey. injection Hkey as <-.
  assert (Hlen : length keys = len matches) by apply (Hcons _ _ Hkeys).
  assert (Hrange : Forall (fun i => i < len matches) order).
  { rewrite <- Hlen. apply argsort_in_range. }
  assert (Horder : order_column
            (reorder (sort_permutation (CDouble keys))
               (attached matches a0 b0 c0)) = ([], inr order)).
  { apply order_column_ok. split; [done|].
    rewrite reorder_lookup, attached_order. simpl.
    by rewrite take_rows_range. }
  apply select_gradients_from in Hsel as (_ & HlX & _ & _ & _ & Hin).
  assert (Harrays : forall j, j < length (dX_dp g) ->
            exists a b c,
              dX_dp g !! j = Some a /\ dY_dp g !! j = Some b
              /\ dPhi_dp g !! j = Some c
              /\ Forall (fun r => r < length a) order
              /\ Forall (fun r => r < length b) order
              /\ Forall (fun r => r < length c) order
              /\ dX_dp g' !! j = Some (take_rows order a)
              /\ dY_dp g' !! j = Some (take_rows order b)
              /\ dPhi_dp g' !! j = Some (take_rows order c)).
  { intros j Hj.
    destruct (Hin j) as (order' & a & b & c & Horder' & rest); [unfold range; lia|].
    rewrite Horder in Horder'. injection Horder' as <-.
    by exists a, b, c. }
  pose proof (lookup_lt_Some _ _ _ Ha0) as H0.
  destruct (Harrays 0 H0)
    as (a & b & c & Ha & Hb & Hc & _ & _ & _ & Ha' & Hb' & Hc').
  simplify_eq.
  split. { rewrite <- Hlen. apply argsort_perm. }
  split. { rewrite reorder_lookup, attached_other, Hkeys
             by apply x_resid_not_attached.
           simpl. by rewrite take_rows_argsort. }
  split. { apply sorted_ascending, float_ltb_asym. }
  split. { intros Hnan. apply (ascending_leb id).
           - by rewrite sorted_perm.
           - apply sorted_ascending, float_ltb_asym. }
  split; [done|].
  split. { apply sorted_perm. }
  split. { apply sorted_ascending, float_ltb_asym. }
  split. { intros Hnan. apply ascending_leb.
           - by rewrite sorted_perm.
           - apply sorted_ascending, float_ltb_asym. }
  split. { by apply order_column_ok in Horder as [_ ?]. }
  split; [done|].
  split. { intros j Hj.
           destruct (Harrays j Hj) as (a' & b' & c' & ? & ? & ? & _ & _ & _ & ?).
           by exists a', b', c'. }
  split.
  { intros i r Hir. split.
    - intros name c Hc Hname. eexists. split.
      + by rewrite reorder_lookup, attached_other, Hc.
      + apply column_item_reorder; [|done].
        by rewrite (Hcons _ _ Hc).
    - intros j Hj.
      destruct (Harrays j Hj)
        as (a' & b' & c' & HA & HB & HC & FA & FB & FC & HA' & HB' & HC').
      unfold component_at. rewrite HA, HB, HC, HA', HB', HC'. simpl.
      by rewrite (proj2 (take_rows_in_range _ _ FA) _ _ Hir),
                 (proj2 (take_rows_in_range _ _ FB) _ _ Hir),
                 (proj2 (take_rows_in_range _ _ FC) _ _ Hir). }
  rewrite !reorder_lookup, Ha', Hb', Hc'. unfold attached, setcol. simpl.
  repeat split.
  - rewrite !lookup_insert_ne by done. by rewrite lookup_insert_eq.
  - rewrite !lookup_insert_ne by done. by rewrite lookup_insert_eq.
  - by rewrite lookup_insert_eq.
Qed.

(** ** What the comparison checks (lines 300-364) *)

Section Claims.
Context `{Library}.

Lemma compared_lengths matches g old_matches new_matches' g' old' :
  compared matches g old_matches new_matches' g' old' ->
  len new_matches' = len matches
  /\ length (dX_dp g') = length (dX_dp g).
Proof.
  intros (a & b & c & key & _ & _ & _ & _ & -> & Hsel & _)%compared_inv.
  by apply select_gradients_from in Hsel as (_ & ? & _).
Qed.

(** A completed comparison has seen every pair of the sorted results
    agree. *)
Lemma compare_ok_agree matches g old_matches out :
  compare matches g old_matches = (out, inr tt) ->
  exists new_matches' g' old',
    compared matches g old_matches new_matches' g' old'
    /\ len new_matches' = len matches
    /\ length (dX_dp g') = length (dX_dp g)
    /\ old' = sorted PrimFloat.ltb ObsPredMatch.x_resid old_matches
    /\ forall i j, i < len matches -> j < length (dX_dp g) ->
         agree_at g' old' i j.
Proof.
  intros (nm' & g' & old' & po & Hcmp & _ & Htest & _)%compare_ok.
  destruct (compared_lengths _ _ _ _ _ _ Hcmp) as [Hlen HlX].
  exists nm', g', old'. split; [done|]. split; [done|]. split; [done|].
  split.
  { by apply compared_inv in Hcmp as (? & ? & ? & ? & _ & _ & _ & _ & _ & _ & ?). }
  apply test_gradients_ok in Htest as [_ Hagree].
  intros i j Hi Hj. apply Hagree; congruence.
Qed.

Lemma select_gradient_err_index new_matches order i g out e :
  order_column new_matches = ([], inr order) ->
  select_gradient new_matches i g = (out, inl e) -> e = IndexError.
Proof.
  intros Horder. unfold select_gradient. intros Hrun. run_inv;
    try done;
    match goal with
    | H : order_column _ = (_, inl _) |- _ => by rewrite Horder in H
    end.
Qed.

Lemma sorted_order_column matches a b c key :
  exists order,
    order_column (reorder (sort_permutation key) (attached matches a b c))
    = ([], inr order).
Proof.
  eexists. apply order_column_ok. split; [done|].
  by rewrite reorder_lookup, attached_order.
Qed.

Lemma sort_attached_err matches a b c g old_matches out e :
  is_Some (columns matches !! "x_resid") ->
  sort_matches (attached matches a b c) g old_matches = (out, inl e) ->
  e = IndexError.
Proof.
  intros [key Hkey]. unfold sort_matches.
  intros [(_ & _ & Hmiss)%sort_err
         |(o1 & nm & o2 & [_ (key' & Hkey' & ->)]%sort_ok & Hk & ->)]%bind_err.
  - rewrite attached_other, Hkey in Hmiss by apply x_resid_not_attached.
    done.
  - apply bind_err in Hk as [Hk|(? & ? & ? & _ & [=] & _)].
    destruct (sorted_order_column matches a b c key') as [order Horder].
    apply (for_each_err_silent _ _ (fun e => e = IndexError)) in Hk as [_ ?];
      [done|].
    intros i g1 o r Hbody. destruct r as [e'|g2].
    + split; [by apply select_gradient_err in Hbody as [-> _]|].
      by eapply select_gradient_err_index.
    + by apply select_gradient_ok in Hbody as [-> _].
Qed.

Lemma miller_index_not_attached : "miller_index" ∉ attached_names.
Proof.
  unfold attached_names. rewrite !not_elem_of_cons.
  repeat split; try done. apply not_elem_of_nil.
Qed.

(** C5: the two counts are printed and nowhere compared.  A run of the
    comparison writes the new count first and, once the gradient arrays
    have been read, the old one, whatever the two are; it can raise only
    later, by an index out of range or by a pair of gradients that does
    not agree. *)
Theorem counts_only_printed matches g old_matches out r :
  is_Some (columns matches !! "x_resid") ->
  is_Some (columns matches !! "miller_index") ->
  compare matches g old_matches = (out, r) ->
  head out = Some (count_new matches)
  /\ (forall nm, attach_columns matches g = ([], inr nm) ->
        exists rest,
          out = count_new matches :: old_banner old_matches ++ rest)
  /\ (forall e, r = inl e ->
        e = IndexError
        \/ (e = AssertionError
            /\ gradient_mismatch matches g old_matches)).
Proof.
  intros Hx Hm Hrun. destruct r as [e|[]].
  - apply compare_err in Hrun
      as [[Hatt ->]|(nm0 & Hatt & [[Hsort ->]|(nm' & g' & old' & Hsort & Hrun)])].
    + split; [done|]. split; [by intros nm; rewrite Hatt|].
      intros ? [= <-]. left. by apply attach_columns_err in Hatt as [_ ->].
    + split; [done|]. split; [intros; by exists []|].
      intros ? [= <-]. left.
      apply attach_columns_ok in Hatt as [_ (a & b & c & _ & _ & _ & ->)].
      by eapply sort_attached_err.
    + assert (Hcmp : compared matches g old_matches nm' g' old')
        by (by exists nm0).
      destruct Hrun as [(po & Hprev & ->)|(po & Hprev & Htest & ->)].
      * split; [done|]. split; [intros; by eexists|].
        intros ? [= <-]. left.
        apply preview_out in Hprev as [_ [->|[_ Hmiss]]]; [done|].
        apply compared_inv in Hcmp
          as (a & b & c & key & _ & _ & _ & _ & -> & _).
        rewrite reorder_lookup, attached_other in Hmiss
          by apply miller_index_not_attached.
        destruct Hm as [c' Hc']. by rewrite Hc' in Hmiss.
      * split; [done|]. split; [intros; by eexists|].
        intros ? [= <-].
        apply test_gradients_err in Htest as [_ [->|[-> (i & j & ? & ? & ?)]]];
          [by left|].
        right. split; [done|]. by exists nm', g', old', i, j.
  - apply compare_ok in Hrun as (nm' & g' & old' & po & _ & _ & _ & ->).
    split; [done|]. split; [intros; by eexists|]. done.
Qed.

End Claims.

(** ** The script as a whole *)

Section Whole.
Context `{Library}.

Lemma shift_beam_err st out e :
  shift_beam st = (out, inl e) -> out = [] /\ e = IndexError.
Proof. unfold shift_beam. intros Hrun. by run_inv. Qed.

Lemma apply_shifts_err st out e :
  apply_shifts st = (out, inl e) -> out = [] /\ e = IndexError.
Proof.
  unfold apply_shifts, shift_detector.
  intros [Hbeam|(o1 & [sta s0] & o2 & Hbeam & Hk & ->)]%bind_err.
  - by apply shift_beam_err in Hbeam.
  - rewrite rotate_crystals_eq in Hk.
    apply bind_err in Hk as [[=]|(o3 & [stb xlo] & o4 & [= <- <- <-] & Hk & ->)].
    match type of Hk with context [change_unit_cells ?s] =>
      destruct (change_unit_cells_eq s) as (X1 & X2 & Huc) end.
    rewrite Huc in Hk.
    apply bind_err in Hk as [[=]|(o5 & [stc xluc] & o6 & _ & [=] & _)].
Qed.



End Whole.

Section Outcomes.
Context `{Library}.

Lemma check_scan_cases out r :
  check_scan = (out, r) ->
  out = []
  /\ ((r = inr tt /\ range_ok = true /\ width_ok = true)
      \/ (r = inl AssertionError
          /\ (range_ok = false \/ width_ok = false))).
Proof.
  unfold check_scan. fold range_ok. fold width_ok.
  destruct range_ok, width_ok; intros [= <- <-]; split; auto.
Qed.

Lemma check_detectors_cases out r :
  check_detectors = (out, r) ->
  out = []
  /\ ((r = inr tt /\ detectors_ok = true)
      \/ (r = inl AssertionError /\ detectors_ok = false)).
Proof.
  unfold check_detectors. fold detectors_ok.
  destruct detectors_ok; intros [= <- <-]; split; auto.
Qed.

(** The ways a run of the script can go. *)
Lemma script_cases out r :
  script = (out, r) ->
  (out = [] /\ r = inl AssertionError
   /\ (range_ok = false \/ width_ok = false \/ detectors_ok = false))
  \/ (range_ok = true /\ width_ok = true /\ detectors_ok = true
      /\ ((exists e, simulate_and_refine = (out, inl e) /\ r = inl e)
          \/ exists o1 matches g old_matches o2,
               simulate_and_refine = (o1, inr (matches, g, old_matches))
               /\ ((exists e,
                      compare matches g old_matches = (o2, inl e)
                      /\ r = inl e /\ out = o1 ++ o2)
                   \/ (compare matches g old_matches = (o2, inr tt)
                       /\ r = inr tt
                       /\ out = o1 ++ o2 ++ interactive_console)))).
Proof.
  unfold script.
  destruct check_scan as [o1 r1] eqn:Hscan.
  apply check_scan_cases in Hscan as [-> [(-> & Hr & Hw)|(-> & Hfail)]].
  2: { intros [-> ->]%bind_raise_l. left. naive_solver. }
  intros Hrun%bind_ok_l.
  destruct check_detectors as [o2 r2] eqn:Hdet.
  apply check_detectors_cases in Hdet as [-> [(-> & Hd)|(-> & Hfail)]].
  2: { apply bind_raise_l in Hrun as [-> ->]. left. naive_solver. }
  apply bind_ok_l in Hrun. right. do 3 (split; [done|]).
  destruct simulate_and_refine as [o3 [e|[[matches g] old_matches]]] eqn:Hsim.
  - left. exists e. unfold mbind, M_bind, bind in Hrun. naive_solver.
  - right. apply (bind_cases _ _ _ _ _ _ eq_refl) in Hrun as (o4 & -> & Hrun).
    destruct (compare matches g old_matches) as [o5 [e|[]]] eqn:Hcmp.
    + exists o3, matches, g, old_matches, o5. split; [done|]. left.
      exists e. unfold mbind, M_bind, bind in Hrun. naive_solver.
    + exists o3, matches, g, old_matches, o5. split; [done|]. right.
      unfold mbind, M_bind, bind, console in Hrun. naive_solver.
Qed.












End Outcomes.

(** ** The scan (lines 87-97) *)

(** C3: the scan of lines 87-92, 1800 images of 0.1 degree from 0, has
    the sweep range (0, pi) in radians, the very floats, and an image
    width that [approx_equal] accepts as 0.1 * pi / 180: the two differ by
    no more than the tolerance.  So the two assertions of lines 96-97
    hold of it, and the script goes on with nothing written. *)
Theorem sweep_range_of_scan :
  let sweep_range := Scan.get_oscillation_range Scan.myscan in
  let temp := Scan.get_oscillation Scan.myscan in
  let im_width := (temp.2 - temp.1)%float in
  Scan.num_images Scan.myscan = 1800%Z
  /\ temp = (0, Scan.deg_as_rad 0.1)%float
  /\ sweep_range = (0%float, pi)
  /\ pair_eqb sweep_range (0%float, pi) = true
  /\ (abs (im_width - 0.1 * pi / 180) <=? Libtbx.eps)%float = true
  /\ Libtbx.approx_equal im_width (0.1 * pi / 180)%float = true
  /\ forall L : Library,
       @get_oscillation_range L = sweep_range ->
       @get_oscillation L = temp ->
       @approx_equal L im_width (0.1 * pi / 180)%float
       = Libtbx.approx_equal im_width (0.1 * pi / 180)%float ->
       @check_scan L = ([], inr tt).
Proof.
  intros sweep_range temp im_width.
  assert (Hrange : sweep_range = (0%float, pi)) by (vm_compute; reflexivity).
  assert (Hwidth : Libtbx.approx_equal im_width (0.1 * pi / 180)%float = true)
    by (vm_compute; reflexivity).
  split; [reflexivity|]. split; [reflexivity|]. split; [exact Hrange|].
  split; [by rewrite Hrange|]. split; [vm_compute; reflexivity|].
  split; [exact Hwidth|].
  intros L HL1 HL2 HL3. unfold check_scan.
  rewrite HL1, HL2. fold im_width. rewrite HL3, Hwidth, Hrange. reflexivity.
Qed.


(** ** The statements at work in the small world *)

Lemma demo_consistent n : consistent (Demo.matches n).
Proof.
  intros name c. unfold Demo.matches. simpl.
  rewrite lookup_insert_Some, lookup_singleton_Some.
  intros [[_ <-]|[_ [_ <-]]]; simpl; unfold range;
    by rewrite length_map, length_seq.
Qed.

Lemma shifts_are_fixed_offsets_witness :
  exists out st1 sv,
    @apply_shifts (Demo.library 10 10) (fix_beam Demo.parameterisations)
    = (out, inr (st1, sv))
    /\ get_param_vals (st1 det_param) = [102; 2; 2; 5; 5; 5]%float
    /\ get_param_vals (st1 s0_param) = [2]%float
    /\ get_param_vals (st1 xl1o_param) = [2; 2; 2]%float
    /\ det_p_vals sv = [100; 0; 0; 0; 0; 0]%float.
Proof.
  destruct (@apply_shifts (Demo.library 10 10)
              (fix_beam Demo.parameterisations))
    as [out [e|[st1 sv]]] eqn:Hrun.
  { vm_compute in Hrun. discriminate Hrun. }
  exists out, st1, sv. split; [reflexivity|].
  destruct (@shifts_are_fixed_offsets (Demo.library 10 10)
              (fix_beam Demo.parameterisations) out st1 sv
              eq_refl eq_refl eq_refl Hrun)
    as (Hdet & (x & rest & Hx & Hs0) & Hxl1 & _ & Hsv & _).
  rewrite Hdet, Hs0, Hxl1, Hsv.
  injection Hx as <- <-. repeat split; vm_compute; reflexivity.
Defined.

Lemma undo_restores_parameters_witness :
  exists out st1 sv st2,
    @apply_shifts (Demo.library 10 10) (fix_beam Demo.parameterisations)
    = (out, inr (st1, sv))
    /\ undo_shifts sv st1 = ([], inr st2)
    /\ get_param_vals (st2 det_param) = [100; 0; 0; 0; 0; 0]%float
    /\ get_param_vals (st2 s0_param) = [0]%float
    /\ get_param_vals (st2 xl2uc_param) = [20; 21; 22; 90; 90; 90]%float.
Proof.
  destruct (@apply_shifts (Demo.library 10 10)
              (fix_beam Demo.parameterisations))
    as [out [e|[st1 sv]]] eqn:Hrun.
  { vm_compute in Hrun. discriminate Hrun. }
  destruct (@undo_restores_parameters (Demo.library 10 10)
              (fix_beam Demo.parameterisations) out st1 sv Hrun)
    as (st2 & Hundo & Hall).
  exists out, st1, sv, st2. split; [reflexivity|]. split; [exact Hundo|].
  rewrite !(proj1 (Hall _)). repeat split; vm_compute; reflexivity.
Defined.

Lemma counts_only_printed_witness :
  exists out rest,
    @compare (Demo.library 10 11) (Demo.matches 10) (Demo.gradients_for 10)
      (Demo.old_matches_for 11) = (out, inr tt)
    /\ len (Demo.matches 10) = 10
    /\ length (Demo.old_matches_for 11) = 11
    /\ out = count_new (Demo.matches 10)
             :: old_banner (Demo.old_matches_for 11) ++ rest.
Proof.
  destruct (@compare (Demo.library 10 11) (Demo.matches 10)
              (Demo.gradients_for 10) (Demo.old_matches_for 11))
    as [out r] eqn:Hrun.
  assert (r = inr tt) as ->.
  { vm_compute in Hrun. by injection Hrun as _ <-. }
  assert (Hx : is_Some (columns (Demo.matches 10) !! "x_resid"))
    by (eexists; reflexivity).
  assert (Hm : is_Some (columns (Demo.matches 10) !! "miller_index"))
    by (eexists; reflexivity).
  destruct (@counts_only_printed (Demo.library 10 11) _ _ _ _ _ Hx Hm Hrun)
    as (_ & Hprinted & _).
  destruct (Hprinted _ eq_refl) as [rest Hout].
  exists out, rest. split; [reflexivity|].
  split; [reflexivity|]. split; [reflexivity|]. exact Hout.
Defined.

Lemma sorted_by_x_resid_witness :
  exists new_matches' g' old',
    compared (Demo.matches 10) (Demo.gradients_for 10)
      (Demo.old_matches_for 10) new_matches' g' old'
    /\ columns new_matches' !! "order"
       = Some (CSizeT [0; 3; 6; 9; 2; 5; 8; 1; 4; 7])
    /\ columns new_matches' !! "x_resid"
       = Some (CDouble [0; 1; 2; 3; 4; 5; 6; 7; 8; 9]%float)
    /\ map ObsPredMatch.x_resid old' = [0; 1; 2; 3; 4; 5; 6; 7; 8; 9]%float
    /\ columns new_matches' !! "dX_dp0" = CDouble <$> dX_dp g' !! 0.
Proof.
  destruct (attach_columns (Demo.matches 10) (Demo.gradients_for 10))
    as [o0 [e|nm0]] eqn:Hatt.
  { vm_compute in Hatt. discriminate Hatt. }
  assert (o0 = []) as -> by (by apply attach_columns_ok in Hatt as [-> _]).
  destruct (sort_matches nm0 (Demo.gradients_for 10)
              (Demo.old_matches_for 10))
    as [o1 [e|[[nm' g'] old']]] eqn:Hsort.
  { apply attach_columns_ok in Hatt as [_ (a & b & c & Ha & Hb & Hc & ->)].
    vm_compute in Ha, Hb, Hc. injection Ha as <-. injection Hb as <-.
    injection Hc as <-. vm_compute in Hsort. discriminate Hsort. }
  assert (o1 = []) as -> by (by apply sort_matches_ok in Hsort as [-> _]).
  assert (Hcmp : compared (Demo.matches 10) (Demo.gradients_for 10)
                   (Demo.old_matches_for 10) nm' g' old')
    by (by exists nm0).
  destruct (sorted_by_x_resid _ _ _ _ _ _
              (map Demo.resid (range 10)) (demo_consistent 10) eq_refl Hcmp)
    as (_ & Hx & _ & _ & Hold & _ & _ & _ & Horder & _ & _ & _ & HdX & _).
  exists nm', g', old'. split; [exact Hcmp|].
  rewrite Horder, Hx, Hold. repeat split; try exact HdX; vm_compute; reflexivity.
Defined.

Lemma sweep_range_of_scan_witness :
  @check_scan (Demo.library 10 10) = ([], inr tt).
Proof.
  apply sweep_range_of_scan; reflexivity.
Defined.



(** * Further properties *)

Import Runs.

Lemma bind_ret_l {A B} (a : A) (k : A -> M B) :
  (([], inr a) : M A) ≫= k = k a.
Proof. unfold mbind, M_bind, bind. by destruct (k a). Qed.

(** ** The checks before the simulation (lines 93-108) *)

Section Checked.
Context `{Library}.

(** X1: line 108 lets the script go on only with exactly one detector in
    the experiment list.  With another number the run ends there on an
    AssertionError with nothing written; a run that has written a line,
    or has reached its end, had exactly one. *)
Theorem single_detector_asserted out r :
  script = (out, r) ->
  (detectors <> 1 -> out = [] /\ r = inl AssertionError)
  /\ (out <> [] \/ r = inr tt -> detectors = 1).
Proof.
  intros [(-> & -> & Hfail)|(_ & _ & Hd & _)]%script_cases.
  - split; [done|]. by intros [?|?].
  - unfold detectors_ok in Hd. apply Nat.eqb_eq in Hd. done.
Qed.

End Checked.

(** ** The beam and the unit cells (lines 128, 141-144, 156-168) *)

Section MoreShifts.
Context `{Library}.

Lemma shift_beam_returns st x rest :
  get_param_vals (st s0_param) = x :: rest ->
  shift_beam st
  = ([], inr (call_set_param_vals s0_param ((x + 2)%float :: rest) st,
              x :: rest)).
Proof.
  intros Hx. unfold shift_beam. by rewrite Hx.
Qed.

Lemma apply_shifts_returns st x rest :
  get_param_vals (st s0_param) = x :: rest ->
  exists st1 sv, apply_shifts st = ([], inr (st1, sv)).
Proof.
  intros Hx. unfold apply_shifts, shift_detector.
  rewrite (shift_beam_returns _ x rest)
    by (unfold call_set_param_vals; by store_simpl).
  rewrite bind_ret_l. cbv beta iota.
  rewrite rotate_crystals_eq, bind_ret_l. cbv beta iota.
  match goal with |- context [change_unit_cells ?s] =>
    destruct (change_unit_cells_eq s) as (X1 & X2 & ->) end.
  rewrite bind_ret_l. by eexists _, _.
Qed.

(** X2: the beam parameterisation has two parameters; line 128 fixes the
    first, so the vector read at line 141 holds the second alone.  The
    shift of lines 141-144 then finds [p_vals[0]], adds 2 to the second
    parameter and leaves the fixed first one as it was; the shifts as a
    whole return and write nothing, and the value kept for the undoing is
    the second parameter's. *)
Theorem beam_shift_hits_free_axis st mu1 mu2 :
  st s0_param = [mu1; mu2] ->
  exists st1 sv,
    apply_shifts (fix_beam st) = ([], inr (st1, sv))
    /\ st1 s0_param
       = [{| value := value mu1; fixed := true |};
          {| value := (value mu2 + 2)%float; fixed := false |}]
    /\ s0_p_vals sv = [value mu2].
Proof.
  intros Hs0.
  assert (Hfix : fix_beam st s0_param
                 = [{| value := value mu1; fixed := true |};
                    {| value := value mu2; fixed := false |}]).
  { unfold fix_beam. store_simpl. by rewrite Hs0. }
  assert (Hget : get_param_vals (fix_beam st s0_param) = [value mu2])
    by (by rewrite Hfix).
  destruct (apply_shifts_returns _ _ _ Hget) as (st1 & sv & Hrun).
  exists st1, sv. split; [done|].
  apply apply_shifts_inv in Hrun
    as (x & rest & X1 & X2 & Hx & _ & Hb & _ & _ & _ & _ & -> & _).
  rewrite Hget in Hx. injection Hx as <- <-.
  rewrite Hb, Hfix. done.
Qed.


End MoreShifts.

(** ** The printed counts of observations (lines 198-245) *)

Section Counts.
Context `{Library}.



End Counts.

(** ** The columns of the new matches (lines 300-311, 340) *)

Section Columns.
Context `{Library}.

Lemma attach_columns_raises matches g :
  dX_dp g = [] \/ dY_dp g = [] \/ dPhi_dp g = [] <->
  attach_columns matches g = ([], inl IndexError).
Proof.
  unfold attach_columns, getitem.
  destruct (dX_dp g) as [|a ?], (dY_dp g) as [|b ?], (dPhi_dp g) as [|c ?];
    simpl; naive_solver.
Qed.

(** X5: the script reads [dX_dp[0]], [dY_dp[0]] and [dPhi_dp[0]] at lines
    309-311.  If the target returned no array for one of the three
    components (no parameter at all), the comparison ends there on an
    IndexError, having written the count of new matches alone; and that
    outcome has no other cause. *)
Theorem gradients_need_a_parameter matches g old_matches :
  compare matches g old_matches = ([count_new matches], inl IndexError)
  <-> dX_dp g = [] \/ dY_dp g = [] \/ dPhi_dp g = [].
Proof.
  rewrite (attach_columns_raises matches). split.
  - intros [[Hatt _]|(nm0 & _ & [[_ [=]]|(nm' & g' & old' & _ & Hrun)])]%compare_err;
      [done|].
    destruct Hrun as [(po & _ & [=])|(po & _ & _ & [=])].
  - intros Hatt. unfold compare. by rewrite Hatt.
Qed.



Lemma attached_consistent matches a b c :
  consistent matches ->
  length a = len matches -> length b = len matches ->
  length c = len matches ->
  consistent (attached matches a b c).
Proof.
  intros Hcons Ha Hb Hc name col. unfold attached, setcol. simpl.
  rewrite !lookup_insert_Some.
  intros [[_ <-]|[_ [[_ <-]|[_ [[_ <-]|[_ [[_ <-]|[_ Hcol]]]]]]]]; simpl;
    try done.
  - unfold range. by rewrite length_seq.
  - exact (Hcons _ _ Hcol).
Qed.

Lemma reorder_consistent idx t :
  consistent t -> Forall (fun i => i < nrows t) idx ->
  length idx = nrows t ->
  consistent (reorder idx t).
Proof.
  intros Hcons Hidx Hlen name col. rewrite reorder_lookup.
  intros (c0 & Hc0 & ->)%fmap_Some. simpl.
  rewrite column_length_reorder; [done|].
  by rewrite (Hcons _ _ Hc0).
Qed.

(** X7: the table stays well formed through lines 308-340.  If every
    column of the matches has one item per row and so have the three
    arrays attached at lines 309-311, then the sorted table has the rows
    count of the matches, one item per row in every column, and the
    columns of the matches together with [order], [dX_dp0], [dY_dp0] and
    [dPhi_dp0]. *)
Theorem sorted_table_well_formed matches g old_matches new_matches' g' old' :
  consistent matches ->
  (forall a, dX_dp g !! 0 = Some a -> length a = len matches) ->
  (forall b, dY_dp g !! 0 = Some b -> length b = len matches) ->
  (forall c, dPhi_dp g !! 0 = Some c -> length c = len matches) ->
  compared matches g old_matches new_matches' g' old' ->
  consistent new_matches'
  /\ len new_matches' = len matches
  /\ dom (columns new_matches')
     = dom (columns matches) ∪ list_to_set attached_names.
Proof.
  intros Hcons HA HB HC
    (a & b & c & key & Ha & Hb & Hc & Hkey & -> & _ & _)%compared_inv.
  pose proof (Hcons _ _ Hkey) as Hlen.
  split; [|split; [done|]].
  - apply reorder_consistent.
    + apply attached_consistent; auto.
    + simpl. rewrite <- Hlen. apply sort_permutation_in_range.
    + simpl. rewrite <- Hlen, sort_permutation_perm.
      unfold range. apply length_seq.
  - unfold reorder, attached, setcol, attached_names. simpl.
    rewrite dom_fmap_L, !dom_insert_L. set_solver.
Qed.

End Columns.

(** ** The preview and the sizes of the results (lines 348-361) *)

Section Sizes.
Context `{Library}.

Lemma row_item_in_range t i name out v :
  row_item t i name = (out, inr v) -> i < nrows t.
Proof. unfold row_item. case_decide; [done|]. intros Hrun. by run_inv. Qed.

(** A line of the preview is written once all its items have been read:
    a round of the loop either raises with nothing written or writes its
    one line, and then row [i] exists on either side. *)
Lemma preview_line_cases new_matches g old_matches i o r :
  preview_line new_matches g old_matches i = (o, r) ->
  (exists e, r = inl e /\ o = [])
  \/ (r = inr tt /\ length o = 1
      /\ i < len new_matches /\ i < length old_matches).
Proof.
  unfold preview_line. destruct r as [e|[]]; intros Hrun.
  - left. exists e. split; [done|].
    run_inv;
      repeat match goal with
      | H : row_item _ _ _ = (_, inr _) |- _ => apply row_item_ok in H as ->
      | H : row_item _ _ _ = (_, inl _) |- _ =>
          apply row_item_err in H as [-> _]
      end; done.
  - right. run_inv.
    match goal with H : row_item _ _ _ = _ |- _ =>
      pose proof (row_item_in_range _ _ _ _ _ H) as Hi;
      apply row_item_ok in H as -> end.
    split; [done|]. split; [done|]. split; [done|].
    by eapply lookup_lt_Some.
Qed.

Lemma preview_from new_matches g old_matches s k out r :
  for_each (seq s k)
    (fun i _ => preview_line new_matches g old_matches i) tt = (out, r) ->
  length out <= k
  /\ (out <> [] ->
      s + length out <= len new_matches
      /\ s + length out <= length old_matches)
  /\ (r = inr tt <-> length out = k).
Proof.
  revert s out. induction k as [|k IH]; intros s out; cbn [seq for_each].
  - intros [= <- <-]. done.
  - destruct (preview_line new_matches g old_matches s) as [o1 r1] eqn:Hline.
    destruct (preview_line_cases _ _ _ _ _ _ Hline)
      as [(e & -> & ->)|(-> & Ho1 & Hs1 & Hs2)].
    + intros [-> ->]%bind_raise_l. simpl. split; [lia|]. split; [done|].
      split; [done|lia].
    + intros (o2 & -> & Hrest)%(bind_cases _ _ _ _ _ _ eq_refl).
      apply IH in Hrest as (Hle & Hin & Hiff).
      rewrite length_app, Ho1. split; [lia|]. split.
      * intros _. destruct o2 as [|p o2]; [simpl; lia|].
        destruct Hin as [? ?]; [done|]. lia.
      * rewrite Hiff. lia.
Qed.

(** X8: the preview loop of lines 348-349 reads ten rows of both results,
    whatever their sizes.  It writes one line per row it could read in
    full, so never more lines than either side has entries, and it
    returns exactly when it has written all ten; with fewer than ten new
    or old matches it raises. *)
Theorem preview_reads_ten_rows new_matches g old_matches out r :
  preview new_matches g old_matches = (out, r) ->
  length out <= 10
  /\ length out <= len new_matches
  /\ length out <= length old_matches
  /\ (r = inr tt <-> length out = 10)
  /\ (len new_matches < 10 \/ length old_matches < 10 ->
      exists e, r = inl e /\ e <> AssertionError).
Proof.
  intros Hrun. pose proof Hrun as (Hle & Hin & Hiff)%preview_from.
  assert (Hsizes : length out <= len new_matches
                   /\ length out <= length old_matches).
  { destruct out as [|p out]; [simpl; lia|]. destruct Hin; [done|]. lia. }
  split; [done|]. split; [apply Hsizes|]. split; [apply Hsizes|].
  split; [done|]. intros Hshort.
  destruct r as [e|[]].
  - exists e. split; [done|].
    by apply preview_out in Hrun as [_ [->|[-> _]]].
  - assert (length out = 10) by (by apply Hiff). lia.
Qed.

(** X9: what a run of the comparison that writes "OK" needs of the sizes
    of the results: at least one parameter, at least ten new matches (the
    preview reads ten rows), and at least as many old matches as new ones
    (the comparison loop reads an old match for every new one).  Nothing
    asks for the two counts to be equal. *)
Theorem ok_needs_enough_matches matches g old_matches out :
  compare matches g old_matches = (out, inr tt) ->
  0 < length (dX_dp g)
  /\ 10 <= len matches
  /\ len matches <= length old_matches.
Proof.
  intros (nm' & g' & old' & po & Hcmp & Hprev & Htest & _)%compare_ok.
  destruct (compared_lengths _ _ _ _ _ _ Hcmp) as [Hlen HlX].
  apply compared_inv in Hcmp
    as (a & b & c & key & Ha & _ & _ & _ & _ & _ & Hold).
  assert (Hlold : length old' = length old_matches)
    by (rewrite Hold; apply length_sorted).
  pose proof (lookup_lt_Some _ _ _ Ha) as H0.
  apply preview_from in Hprev as (_ & Hin & Hiff).
  assert (Hpo : length po = 10) by (by apply Hiff).
  assert (Hten : 10 <= len matches).
  { destruct po as [|p po]; [done|]. destruct Hin; [done|]. lia. }
  split; [done|]. split; [done|].
  apply test_gradients_ok in Htest as [_ Hagree].
  destruct (Hagree (len matches - 1) 0) as (_ & _ & _ & gj & _ & _ & _ & Hg & _);
    [lia..|].
  apply old_gradient_at_Some in Hg as (m & Hm%lookup_lt_Some & _). lia.
Qed.

(** X10: an assertion of the comparison can fail only in the loop of lines
    355-361.  A run of the comparison that ends on an AssertionError has
    written the ten lines of the preview and then "TESTING GRADIENTS", so
    it had at least ten matches on either side. *)
Theorem assertion_fails_after_preview matches g old_matches out :
  compare matches g old_matches = (out, inl AssertionError) ->
  (exists before po after,
     out = before ++ po ++ PStr "TESTING GRADIENTS" :: after
     /\ length po = 10 /\ Forall is_preview po)
  /\ 10 <= len matches /\ 10 <= length old_matches.
Proof.
  intros [[Hatt _]|(nm0 & Hatt & [[Hsort _]|(nm' & g' & old' & Hsort & Hc)])]%compare_err.
  - by apply attach_columns_err in Hatt as [_ ?].
  - by apply sort_matches_err in Hsort as [_ [?|[?|?]]].
  - destruct Hc as [(po & Hprev & _)|(po & Hprev & _ & ->)].
    { by apply preview_out in Hprev as [_ [?|[? _]]]. }
    assert (Hcmp : compared matches g old_matches nm' g' old')
      by (by exists nm0).
    destruct (compared_lengths _ _ _ _ _ _ Hcmp) as [Hlen _].
    apply compared_inv in Hcmp
      as (_ & _ & _ & _ & _ & _ & _ & _ & _ & _ & Hold).
    assert (Hlold : length old' = length old_matches)
      by (rewrite Hold; apply length_sorted).
    pose proof Hprev as [Hall _]%preview_out.
    apply preview_from in Hprev as (_ & Hin & Hiff).
    assert (Hpo : length po = 10) by (by apply Hiff).
    split.
    { exists (count_new matches :: old_banner old_matches), po, [].
      split; [|done]. by rewrite app_comm_cons. }
    destruct po as [|p po]; [done|]. destruct Hin; [done|].
    simpl in *. lia.
Qed.

End Sizes.

(** ** What the comparison does not look at (lines 346-361) *)

Lemma alike_refl {A} (m : M A) : alike eq m m.
Proof. unfold alike. by destruct m as [o [e|a]]. Qed.

Lemma alike_ret {A B} (Q : A -> B -> Prop) a b :
  Q a b -> alike Q (mret a : M A) (mret b : M B).
Proof. by unfold alike. Qed.

Lemma alike_print p1 p2 : alike eq (print p1) (print p2).
Proof. by unfold alike. Qed.

Lemma alike_bind {A A' B B'} (Q : A -> A' -> Prop) (Q' : B -> B' -> Prop)
    (m1 : M A) (m2 : M A') (k1 : A -> M B) (k2 : A' -> M B') :
  alike Q m1 m2 ->
  (forall a1 a2, Q a1 a2 -> alike Q' (k1 a1) (k2 a2)) ->
  alike Q' (m1 ≫= k1) (m2 ≫= k2).
Proof.
  unfold alike, mbind, M_bind, bind.
  destruct m1 as [o1 [e1|a1]], m2 as [o2 [e2|a2]]; simpl;
    intros [Hlen Hr] Hk; try done.
  specialize (Hk _ _ Hr). destruct (k1 a1), (k2 a2); simpl in *.
  destruct Hk as [Hlen' ?]. split; [|done]. rewrite !length_app. lia.
Qed.

Lemma alike_bind_same {A B B'} (Q' : B -> B' -> Prop)
    (m : M A) (k1 : A -> M B) (k2 : A -> M B') :
  (forall a, alike Q' (k1 a) (k2 a)) ->
  alike Q' (m ≫= k1) (m ≫= k2).
Proof.
  intros Hk. apply (alike_bind eq); [apply alike_refl|].
  by intros a ? <-.
Qed.

Lemma alike_for_each {A S S'} (Q : S -> S' -> Prop) (xs : list A)
    (b1 : A -> S -> M S) (b2 : A -> S' -> M S') s1 s2 :
  (forall x s1 s2, Q s1 s2 -> alike Q (b1 x s1) (b2 x s2)) ->
  Q s1 s2 ->
  alike Q (for_each xs b1 s1) (for_each xs b2 s2).
Proof.
  intros Hb. revert s1 s2.
  induction xs as [|x xs IH]; intros s1 s2 Hs; cbn [for_each].
  - by apply alike_ret.
  - apply (alike_bind Q); [by apply Hb|]. apply IH.
Qed.

Lemma alike_getitem {A B} (Q : A -> B -> Prop) l1 l2 i :
  Forall2 Q l1 l2 -> alike Q (getitem l1 i) (getitem l2 i).
Proof.
  intros Hl. unfold getitem.
  destruct (l1 !! i) as [x|] eqn:H1.
  - destruct (Forall2_lookup_l _ _ _ _ _ Hl H1) as (y & -> & Hxy).
    by apply alike_ret.
  - pose proof Hl as Hlen%Forall2_length.
    apply lookup_ge_None in H1. rewrite Hlen in H1.
    apply lookup_ge_None in H1. by rewrite H1.
Qed.

Lemma insert_sorted_same_but_index x y l1 l2 :
  same_but_index x y -> Forall2 same_but_index l1 l2 ->
  Forall2 same_but_index
    (insert_sorted PrimFloat.ltb ObsPredMatch.x_resid x l1)
    (insert_sorted PrimFloat.ltb ObsPredMatch.x_resid y l2).
Proof.
  intros Hxy Hl. induction Hl as [|a b l1 l2 Hab Hl IH]; simpl.
  - constructor; [done|constructor].
  - rewrite (proj1 Hxy), (proj1 Hab).
    destruct (_ <? _)%float.
    + constructor; [done|apply IH].
    + constructor; [done|]. by constructor.
Qed.

Lemma sorted_same_but_index l1 l2 :
  Forall2 same_but_index l1 l2 ->
  Forall2 same_but_index
    (sorted PrimFloat.ltb ObsPredMatch.x_resid l1)
    (sorted PrimFloat.ltb ObsPredMatch.x_resid l2).
Proof.
  unfold sorted. induction 1; simpl; [constructor|].
  by apply insert_sorted_same_but_index.
Qed.

Section Unseen.
Context `{Library}.

Lemma alike_test_gradient g old1 old2 i j :
  Forall2 same_but_index old1 old2 ->
  alike eq (test_gradient g old1 i j) (test_gradient g old2 i j).
Proof.
  intros Hold. unfold test_gradient.
  repeat first
    [ apply alike_refl
    | apply (alike_bind same_but_index);
        [by apply alike_getitem|intros ? ? [_ Hg]; cbv beta; rewrite ?Hg; clear Hg]
    | apply alike_bind_same; intros ? ].
Qed.

Lemma alike_test_gradients new_matches g old1 old2 :
  Forall2 same_but_index old1 old2 ->
  alike eq (test_gradients new_matches g old1)
           (test_gradients new_matches g old2).
Proof.
  intros Hold. unfold test_gradients.
  apply alike_for_each; [|done]. intros i [] ? <-.
  apply alike_for_each; [|done]. intros j [] ? <-.
  by apply alike_test_gradient.
Qed.

Lemma alike_preview new_matches g old1 old2 :
  Forall2 same_but_index old1 old2 ->
  alike eq (preview new_matches g old1) (preview new_matches g old2).
Proof.
  intros Hold. unfold preview.
  apply alike_for_each; [|done]. intros i [] ? <-.
  unfold preview_line.
  repeat first
    [ apply alike_print
    | apply (alike_bind same_but_index);
        [by apply alike_getitem|intros ? ? [_ Hg]; cbv beta; rewrite ?Hg; clear Hg]
    | apply alike_bind_same; intros ? ].
Qed.

(** X11: the comparison never looks at the Miller indices of the old
    matches, except to print them in the preview.  Two lists of old
    matches that agree, entry by entry, in [x_resid] and [gradients] give
    runs that end alike (both at the end, or both on the same exception)
    after as many lines; nothing pairs a new match with an old one but
    its place in the order of [x_resid]. *)
Theorem miller_indices_not_compared matches g old1 old2 :
  Forall2 same_but_index old1 old2 ->
  (compare matches g old1).2 = (compare matches g old2).2
  /\ length (compare matches g old1).1 = length (compare matches g old2).1.
Proof.
  intros Hold.
  assert (Halike : alike eq (compare matches g old1)
                            (compare matches g old2)).
  { unfold compare.
    apply alike_bind_same; intros _.
    apply alike_bind_same; intros nm0.
    do 3 (apply alike_bind_same; intros _).
    apply (alike_bind eq); [apply alike_print|intros _ _ _].
    apply (alike_bind (fun r1 r2 =>
             r1.1 = r2.1 /\ Forall2 same_but_index r1.2 r2.2)).
    { unfold sort_matches.
      apply alike_bind_same; intros nm1.
      apply alike_bind_same; intros g1.
      apply alike_ret. split; [done|]. by apply sorted_same_but_index. }
    intros [[nm1 g1] o1] [[nm2 g2] o2] [[= <- <-] Ho]. simpl in Ho.
    apply (alike_bind eq); [by apply alike_preview|intros _ _ _].
    apply alike_bind_same; intros _.
    apply (alike_bind eq); [by apply alike_test_gradients|intros _ _ _].
    apply alike_refl. }
  destruct Halike as [Hlen Hr]. split; [|done].
  destruct (compare matches g old1).2 as [e1|[]],
           (compare matches g old2).2 as [e2|[]]; try done.
  by rewrite Hr.
Qed.

End Unseen.

(** ** The run as a whole (lines 128-364) *)

Section Composition.
Context `{Library}.

(** The undoing after the shifts returns, with every parameterisation as
    it was. *)
Lemma undo_after_shifts st out st1 sv :
  apply_shifts st = (out, inr (st1, sv)) ->
  exists st2, undo_shifts sv st1 = ([], inr st2) /\ forall x, st2 x = st x.
Proof.
  intros (x & rest & X1 & X2 & Hs0 & Hd & Hb & H1 & H2 & Hu1 & Hu2 & -> & _)%apply_shifts_inv.
  unfold undo_shifts, call_set_param_vals. simpl.
  eexists. split; [reflexivity|].
  intros y. rewrite Hs0.
  destruct y; store_simpl;
    rewrite ?Hd, ?Hb, ?H1, ?H2, ?Hu1, ?Hu2, <- ?Hs0;
    apply set_get_param_vals.
Qed.

(** The two tables after the new classes have run. *)
Lemma tables_after_new_pipeline st obs_refs :
  exists reflections old_reflections h h',
    make_tables obs_refs = (reflections, old_reflections, h)
    /\ run_new_pipeline st reflections h
       = (h',
          get_matches st (foldl (fun t f => f t) (to_table obs_refs)
                                (new_pipeline_steps st)),
          calculate_gradients st
            (foldl (fun t f => f t) (to_table obs_refs)
                   (new_pipeline_steps st)))
    /\ run_old_pipeline st old_reflections h'
       = old_get_matches st (to_table obs_refs).
Proof.
  unfold make_tables, deepcopy.
  destruct (alloc (to_table obs_refs) ∅) as [l0 h0] eqn:Ha0.
  apply alloc_fresh in Ha0 as [_ ->].
  rewrite lookup_total_insert_eq.
  destruct (alloc (to_table obs_refs) (<[l0:=to_table obs_refs]> ∅))
    as [l1 h1] eqn:Ha1.
  apply alloc_fresh in Ha1 as [Hfresh ->].
  assert (l0 <> l1) as Hne.
  { intros <-. by rewrite lookup_insert_eq in Hfresh. }
  set (h := (<[l1:=to_table obs_refs]> (<[l0:=to_table obs_refs]> ∅) : heap)).
  assert (Hl0 : h !! l0 = Some (to_table obs_refs)).
  { unfold h. rewrite lookup_insert_ne by done. by rewrite lookup_insert_eq. }
  assert (Hl1 : h !! l1 = Some (to_table obs_refs)).
  { unfold h. by rewrite lookup_insert_eq. }
  exists l0, l1, h, (foldl (fun h f => mutate f l0 h) h (new_pipeline_steps st)).
  split; [done|].
  pose proof (mutate_steps_same (new_pipeline_steps st) l0 h _ Hl0) as Hnew.
  pose proof (mutate_steps_other (new_pipeline_steps st) l0 l1 h Hne) as Hold.
  rewrite Hl1 in Hold.
  unfold run_new_pipeline, run_old_pipeline.
  by rewrite (lookup_total_correct _ _ _ Hnew),
             (lookup_total_correct _ _ _ Hold).
Qed.

Lemma generate_reflections_eq st :
  generate_reflections st = (generation_lines st, inr (observations st)).
Proof.
  unfold generate_reflections, generation_lines, observations, intersected.
  by rewrite !length_map.
Qed.

(** What a completed run of lines 128-335 has done. *)
Lemma simulate_and_refine_inv out matches g old_matches :
  simulate_and_refine = (out, inr (matches, g, old_matches)) ->
  exists st1 sv st2,
    apply_shifts (fix_beam parameterised) = ([], inr (st1, sv))
    /\ undo_shifts sv st1 = ([], inr st2)
    /\ (forall x, st2 x = fix_beam parameterised x)
    /\ out = generation_lines st1 ++ [PStr "NEW CLASSES"]
    /\ matches
       = get_matches st2
           (foldl (fun t f => f t) (to_table (observations st1))
                  (new_pipeline_steps st2))
    /\ g = calculate_gradients st2
             (foldl (fun t f => f t) (to_table (observations st1))
                    (new_pipeline_steps st2))
    /\ old_matches = old_get_matches st2 (to_table (observations st1)).
Proof.
  unfold simulate_and_refine.
  destruct (apply_shifts (fix_beam parameterised)) as [o1 [e1|[st1 sv]]]
    eqn:Hshift.
  { apply apply_shifts_err in Hshift as [-> ->].
    by intros [_ [=]]%bind_raise_l. }
  pose proof Hshift
    as (_ & _ & _ & _ & _ & _ & _ & _ & _ & _ & _ & _ & ->)%apply_shifts_inv.
  destruct (undo_after_shifts _ _ _ _ Hshift) as (st2 & Hundo & Hsame).
  rewrite bind_ret_l. cbv beta iota.
  rewrite generate_reflections_eq.
  intros (o3 & -> & Hrun)%(bind_cases _ _ _ _ _ _ eq_refl).
  rewrite Hundo, bind_ret_l in Hrun. cbv beta iota in Hrun.
  destruct (tables_after_new_pipeline st2 (observations st1))
    as (l0 & l1 & h & h' & Htab & Hnew & Hold).
  rewrite Htab, Hnew, Hold in Hrun.
  injection Hrun as <- <- <- <-.
  exists st1, sv, st2. done.
Qed.

(** X12: the observations are simulated with the shifted models, and both
    refinement pipelines start from the models as they were before the
    shifts and from the same table of observations: the new classes from
    the table itself, which they may change as they go, the old ones from
    its copy. *)
Theorem pipelines_see_restored_models out matches g old_matches :
  simulate_and_refine = (out, inr (matches, g, old_matches)) ->
  exists st1 sv st2,
    apply_shifts (fix_beam parameterised) = ([], inr (st1, sv))
    /\ (forall x, st2 x = fix_beam parameterised x)
    /\ (exists o, generate_reflections st1 = (o, inr (observations st1)))
    /\ matches
       = get_matches st2
           (foldl (fun t f => f t) (to_table (observations st1))
                  (new_pipeline_steps st2))
    /\ g = calculate_gradients st2
             (foldl (fun t f => f t) (to_table (observations st1))
                    (new_pipeline_steps st2))
    /\ old_matches = old_get_matches st2 (to_table (observations st1)).
Proof.
  intros (st1 & sv & st2 & Hshift & _ & Hsame & _ & Hm & Hg & Hold)%simulate_and_refine_inv.
  exists st1, sv, st2. do 2 (split; [done|]).
  split; [|done]. eexists. apply generate_reflections_eq.
Qed.


End Composition.

(** ** The gradient arrays after the sorting (lines 342-345) *)

Section Arrays.
Context `{Library}.

Lemma sorted_order matches a b c key :
  consistent matches ->
  columns matches !! "x_resid" = Some key ->
  order_column (reorder (sort_permutation key) (attached matches a b c))
  = ([], inr (sort_permutation key)).
Proof.
  intros Hcons Hkey. apply order_column_ok. split; [done|].
  rewrite reorder_lookup, attached_order. simpl.
  rewrite take_rows_range; [done|].
  unfold len. rewrite <- (Hcons _ _ Hkey). apply sort_permutation_in_range.
Qed.

Lemma selection_sized {A} (order : list nat) (a : list A) n :
  order ≡ₚ range n ->
  Forall (fun r => r < length a) order ->
  length (take_rows order a) = n /\ n <= length a
  /\ (length a = n -> take_rows order a ≡ₚ a).
Proof.
  intros Hperm Hin. split; [|split].
  - rewrite (proj1 (take_rows_in_range _ _ Hin)), Hperm.
    unfold range. apply length_seq.
  - destruct n as [|n]; [lia|].
    rewrite Hperm in Hin. unfold range in Hin.
    rewrite Forall_seq in Hin. specialize (Hin n). lia.
  - intros <-. by apply take_rows_perm.
Qed.

(** X14: the loop of lines 342-345 reorders, for every parameter [j] that
    [dX_dp] has, the three arrays of [j] by the [order] column.  If it
    completes, each array had at least one item per match, and has exactly
    one per match afterwards; an array that had exactly one per match
    keeps its values, in another order: the sorting drops and repeats no
    gradient. *)
Theorem sorted_arrays_keep_their_values matches g old_matches
    new_matches' g' old' j :
  consistent matches ->
  compared matches g old_matches new_matches' g' old' ->
  j < length (dX_dp g) ->
  exists a b c a' b' c',
    dX_dp g !! j = Some a /\ dY_dp g !! j = Some b
    /\ dPhi_dp g !! j = Some c
    /\ dX_dp g' !! j = Some a' /\ dY_dp g' !! j = Some b'
    /\ dPhi_dp g' !! j = Some c'
    /\ length a' = len matches /\ length b' = len matches
    /\ length c' = len matches
    /\ len matches <= length a /\ len matches <= length b
    /\ len matches <= length c
    /\ (length a = len matches -> a' ≡ₚ a)
    /\ (length b = len matches -> b' ≡ₚ b)
    /\ (length c = len matches -> c' ≡ₚ c).
Proof.
  intros Hcons
    (a0 & b0 & c0 & key & _ & _ & _ & Hkey & -> & Hsel & _)%compared_inv Hj.
  pose proof (sorted_order matches a0 b0 c0 key Hcons Hkey) as Horder.
  apply select_gradients_from in Hsel as (_ & _ & _ & _ & _ & Hin).
  destruct (Hin j) as (order & a & b & c & Horder' & Ha & Hb & Hc
                         & Fa & Fb & Fc & Ha' & Hb' & Hc');
    [unfold range; lia|].
  rewrite Horder in Horder'. injection Horder' as <-.
  assert (Hperm : sort_permutation key ≡ₚ range (len matches)).
  { unfold len. rewrite <- (Hcons _ _ Hkey). apply sort_permutation_perm. }
  destruct (selection_sized _ a _ Hperm Fa) as (? & ? & ?).
  destruct (selection_sized _ b _ Hperm Fb) as (? & ? & ?).
  destruct (selection_sized _ c _ Hperm Fc) as (? & ? & ?).
  eexists a, b, c, _, _, _. repeat split; eauto.
Qed.

End Arrays.

(** ** Rows with equal x residuals meet (lines 340, 346) *)

(** The order of the floats: [<=] is transitive, reflexive on what is not
    a NaN, and two floats that are [<=] either way are [==]. *)
Lemma SFleb_trans x y z :
  SFleb x y = true -> SFleb y z = true -> SFleb x z = true.
Proof.
  unfold SFleb.
  destruct x as [sx|sx| |sx mx ex], y as [sy|sy| |sy my ey],
           z as [sz|sz| |sz mz ez]; simpl; try done;
    try (by destruct sx, sy, sz).
  change (Pos.compare_cont Eq) with Pos.compare.
  destruct sx, sy, sz; try done;
    destruct (Z.compare_spec ex ey), (Z.compare_spec ey ez),
             (Z.compare_spec ex ez); subst; try lia; try done; simpl;
    destruct (Pos.compare_spec mx my), (Pos.compare_spec my mz),
             (Pos.compare_spec mx mz); subst; try lia; try done.
Qed.

Lemma float_leb_trans (a b c : float) :
  (a <=? b)%float = true -> (b <=? c)%float = true ->
  (a <=? c)%float = true.
Proof. rewrite !FloatAxioms.leb_spec. apply SFleb_trans. Qed.

Lemma float_leb_refl (a : float) :
  is_nan a = false -> (a <=? a)%float = true.
Proof.
  unfold is_nan. rewrite FloatAxioms.eqb_spec, FloatAxioms.leb_spec.
  unfold SFeqb, SFleb. by destruct (SFcompare _ _) as [[]|].
Qed.

Lemma float_leb_antisym (a b : float) :
  (a <=? b)%float = true -> (b <=? a)%float = true ->
  (a =? b)%float = true.
Proof.
  rewrite !FloatAxioms.leb_spec, FloatAxioms.eqb_spec.
  unfold SFleb, SFeqb.
  rewrite (SFcompare_antisym (Prim2SF a) (Prim2SF b)).
  by destruct (SFcompare (Prim2SF a) (Prim2SF b)) as [[]|].
Qed.

(** In an ascending list the item at place [i] is [<= v] exactly when more
    than [i] items are. *)
Lemma sorted_place (l : list float) i a v :
  Sorted (fun x y => (x <=? y)%float = true) l ->
  l !! i = Some a ->
  (a <=? v)%float = true
  <-> i < length (List.filter (fun z => (z <=? v)%float) l).
Proof.
  intros Hs%Sorted_StronglySorted;
    [|intros x y z; apply float_leb_trans].
  revert i. induction Hs as [|x l Hs IH Hx]; intros i; [done|].
  assert (Hnone : (x <=? v)%float = false ->
            List.filter (fun z => (z <=? v)%float) l = []).
  { intros Hxv. clear IH Hs. induction Hx as [|y l Hy _ IH]; [done|].
    simpl. rewrite IH.
    destruct (y <=? v)%float eqn:Hyv; [|done].
    by rewrite (float_leb_trans _ _ _ Hy Hyv) in Hxv. }
  destruct i as [|i]; simpl.
  - intros [= ->]. destruct (a <=? v)%float eqn:Hav; simpl.
    + split; [lia|done].
    + rewrite Hnone by done. simpl. split; [done|lia].
  - intros Hi. rewrite (IH _ Hi).
    destruct (x <=? v)%float eqn:Hxv; simpl; [lia|].
    rewrite Hnone by done. simpl. lia.
Qed.

Lemma length_filter_perm {A} (f : A -> bool) (l1 l2 : list A) :
  l1 ≡ₚ l2 -> length (List.filter f l1) = length (List.filter f l2).
Proof.
  induction 1 as [|x l1 l2 _ IH|x y l|l1 l2 l3 _ IH1 _ IH2]; simpl.
  - done.
  - destruct (f x); simpl; by rewrite IH.
  - by destruct (f x), (f y).
  - by rewrite IH1.
Qed.

(** Two ascending lists with the same items hold equal items place by
    place. *)
Lemma sorted_lists_meet (l1 l2 : list float) :
  Forall (fun k => is_nan k = false) l1 ->
  Sorted (fun x y => (x <=? y)%float = true) l1 ->
  Sorted (fun x y => (x <=? y)%float = true) l2 ->
  l1 ≡ₚ l2 ->
  Forall2 (fun a b => (a =? b)%float = true) l1 l2.
Proof.
  intros Hnan1 Hs1 Hs2 Hperm.
  assert (Hnan2 : Forall (fun k => is_nan k = false) l2)
    by (by rewrite <- Hperm).
  apply Forall2_same_length_lookup. split.
  { by apply Permutation_length. }
  intros i a b Ha Hb.
  assert (is_nan a = false) as Hna.
  { rewrite Forall_lookup in Hnan1. by eapply Hnan1. }
  assert (is_nan b = false) as Hnb.
  { rewrite Forall_lookup in Hnan2. by eapply Hnan2. }
  apply float_leb_antisym.
  - apply (sorted_place l1 i a b Hs1 Ha).
    rewrite (length_filter_perm _ _ _ Hperm).
    apply (sorted_place l2 i b b Hs2 Hb). by apply float_leb_refl.
  - apply (sorted_place l2 i b a Hs2 Hb).
    rewrite <- (length_filter_perm _ _ _ Hperm).
    apply (sorted_place l1 i a a Hs1 Ha). by apply float_leb_refl.
Qed.

Lemma sorted_residuals_meet keys old_matches :
  Forall (fun k => is_nan k = false) keys ->
  map ObsPredMatch.x_resid old_matches ≡ₚ keys ->
  Forall2 (fun a b => (a =? b)%float = true)
    (sorted PrimFloat.ltb id keys)
    (ObsPredMatch.x_resid
       <$> sorted PrimFloat.ltb ObsPredMatch.x_resid old_matches).
Proof.
  intros Hnan Hperm.
  rewrite (sorted_fmap PrimFloat.ltb ObsPredMatch.x_resid id) by done.
  apply sorted_lists_meet.
  - by rewrite sorted_perm.
  - apply (ascending_leb id); [by rewrite sorted_perm|].
    apply sorted_ascending, float_ltb_asym.
  - apply (ascending_leb id).
    + rewrite sorted_perm. by rewrite Hperm.
    + apply sorted_ascending, float_ltb_asym.
  - rewrite !sorted_perm. by symmetry.
Qed.

Section Aligned.
Context `{Library}.

(** X16: what the sorting by [x_resid] is for.  If the old matches carry
    the x residuals of the new ones, in whatever order, and none is a NaN,
    then after lines 340 and 346 the two results have equal x residuals
    row by row: the comparison pairs each new match with an old match of
    the same x residual. *)
Theorem sorting_aligns_equal_residuals matches g old_matches
    new_matches' g' old' keys :
  columns matches !! "x_resid" = Some (CDouble keys) ->
  Forall (fun k => is_nan k = false) keys ->
  map ObsPredMatch.x_resid old_matches ≡ₚ keys ->
  compared matches g old_matches new_matches' g' old' ->
  exists keys',
    columns new_matches' !! "x_resid" = Some (CDouble keys')
    /\ length keys' = length old'
    /\ Forall2 (fun k m => (k =? ObsPredMatch.x_resid m)%float = true)
               keys' old'.
Proof.
  intros Hkeys Hnan Hperm
    (a & b & c & key & _ & _ & _ & Hkey & -> & _ & ->)%compared_inv.
  rewrite Hkeys in Hkey. injection Hkey as <-.
  exists (sorted PrimFloat.ltb id keys).
  pose proof (sorted_residuals_meet _ _ Hnan Hperm) as Hmeet.
  split; [|split].
  - rewrite reorder_lookup, attached_other, Hkeys
      by apply x_resid_not_attached.
    simpl. by rewrite take_rows_argsort.
  - apply Forall2_length in Hmeet. by rewrite length_fmap in Hmeet.
  - by apply Forall2_fmap_r in Hmeet.
Qed.

End Aligned.

(** ** When the comparison succeeds (lines 300-364) *)

Lemma for_each_unit_returns {A} (xs : list A) (f : A -> M unit) :
  Forall (fun x => exists o, f x = (o, inr tt)) xs ->
  exists out, for_each xs (fun x _ => f x) tt = (out, inr tt).
Proof.
  induction 1 as [|x xs [o Hx] _ [out IH]]; cbn [for_each].
  - by exists [].
  - exists (o ++ out). apply bind_ok. by exists o, tt, out.
Qed.

Lemma column_item_is_Some c i :
  i < column_length c -> is_Some (column_item c i).
Proof.
  destruct c as [l|l|l]; simpl; intros Hi;
    destruct (lookup_lt_is_Some_2 l i Hi) as [x ->]; by eexists.
Qed.

Lemma row_item_returns t i name c :
  i < nrows t -> columns t !! name = Some c -> i < column_length c ->
  exists v, row_item t i name = ([], inr v).
Proof.
  intros Hi Hc Hlen. destruct (column_item_is_Some c i Hlen) as [v Hv].
  exists v. unfold row_item, getcol. rewrite decide_True by done.
  rewrite Hc. unfold mret, M_ret, ret. by rewrite bind_ret_l, Hv.
Qed.

Lemma getitem_returns {A} (l : list A) i x :
  l !! i = Some x -> getitem l i = ([], inr x).
Proof. intros Hx. by apply getitem_ok. Qed.

Lemma assert_returns b : b = true -> assert b = ([], inr tt).
Proof. by intros ->. Qed.

Ltac read_item H :=
  rewrite ?(getitem_returns _ _ _ H), bind_ret_l; cbv beta.

Ltac pass_assert H := rewrite (assert_returns _ H), bind_ret_l; cbv beta.

Section Succeeds.
Context `{Library}.

Lemma test_gradient_returns g old_matches i j :
  agree_at g old_matches i j ->
  test_gradient g old_matches i j = ([], inr tt).
Proof.
  intros (x & y & phi & gj & (a & Ha & Hx)%component_at_Some
            & (b & Hb & Hy)%component_at_Some
            & (c & Hc & Hphi)%component_at_Some
            & (m & Hm & Hgj)%old_gradient_at_Some & Ax & Ay & Aphi).
  unfold test_gradient.
  read_item Ha. read_item Hx. read_item Hm. read_item Hgj. pass_assert Ax.
  read_item Hb. read_item Hy. read_item Hm. read_item Hgj. pass_assert Ay.
  read_item Hc. read_item Hphi. read_item Hm. read_item Hgj.
  by apply assert_returns.
Qed.

Lemma test_gradients_returns new_matches g old_matches :
  (forall i j, i < len new_matches -> j < length (dX_dp g) ->
     agree_at g old_matches i j) ->
  test_gradients new_matches g old_matches = ([], inr tt).
Proof.
  intros Hagree. unfold test_gradients.
  apply for_each_unit_silent, Forall_seq. intros i Hi.
  apply for_each_unit_silent, Forall_seq. intros j Hj.
  apply test_gradient_returns, Hagree; lia.
Qed.

Lemma preview_line_returns new_matches g old_matches i c :
  i < len new_matches ->
  columns new_matches !! "miller_index" = Some c ->
  i < column_length c ->
  agree_at g old_matches i 0 ->
  exists o, preview_line new_matches g old_matches i = (o, inr tt).
Proof.
  intros Hi Hc Hlen
    (x & y & phi & gj & (a & Ha & Hx)%component_at_Some
       & (b & Hb & Hy)%component_at_Some
       & (c' & Hc' & Hphi)%component_at_Some
       & (m & Hm & Hgj)%old_gradient_at_Some & _).
  destruct (row_item_returns _ _ _ _ Hi Hc Hlen) as [v Hv].
  eexists. unfold preview_line.
  rewrite Hv, bind_ret_l. cbv beta.
  read_item Ha. read_item Hx. read_item Hb. read_item Hy.
  read_item Hc'. read_item Hphi. read_item Hm. read_item Hm.
  read_item Hgj. reflexivity.
Qed.

(** The comparison reaches its end when the sorted results agree and
    there are ten rows to preview. *)
Lemma compare_returns matches g old_matches new_matches' g' old' :
  consistent matches ->
  is_Some (columns matches !! "miller_index") ->
  10 <= len matches ->
  compared matches g old_matches new_matches' g' old' ->
  (forall i j, i < len matches -> j < length (dX_dp g) ->
     agree_at g' old' i j) ->
  exists out, compare matches g old_matches = (out, inr tt).
Proof.
  intros Hcons [mi Hmi] Hten Hcmp Hagree.
  destruct (compared_lengths _ _ _ _ _ _ Hcmp) as [Hlen HlX].
  pose proof Hcmp as (nm0 & Hatt & Hsort).
  pose proof Hcmp
    as (a & b & c & key & Ha & _ & _ & Hkey & Hnm' & _)%compared_inv.
  pose proof (lookup_lt_Some _ _ _ Ha) as H0.
  assert (Hcol : columns new_matches' !! "miller_index"
                 = Some (reorder_column (sort_permutation key) mi)).
  { rewrite Hnm', reorder_lookup, attached_other, Hmi
      by apply miller_index_not_attached. done. }
  assert (Hcl : column_length (reorder_column (sort_permutation key) mi)
                = len matches).
  { rewrite column_length_reorder.
    - rewrite sort_permutation_perm. unfold range. rewrite length_seq.
      apply (Hcons _ _ Hkey).
    - rewrite (Hcons _ _ Hmi), <- (Hcons _ _ Hkey).
      apply sort_permutation_in_range. }
  destruct (for_each_unit_returns (range 10)
              (preview_line new_matches' g' old')) as [po Hprev].
  { apply Forall_seq. intros i Hi.
    eapply preview_line_returns; [lia|exact Hcol|lia|].
    apply Hagree; lia. }
  assert (Htest : test_gradients new_matches' g' old' = ([], inr tt)).
  { apply test_gradients_returns. intros i j Hi Hj.
    apply Hagree; lia. }
  eexists. unfold compare.
  rewrite Hatt. unfold print. unfold mbind at 1, M_bind at 1, bind at 1.
  rewrite !bind_ret_l.
  unfold mbind at 1, M_bind at 1, bind at 1.
  unfold mbind at 1, M_bind at 1, bind at 1.
  unfold mbind at 1, M_bind at 1, bind at 1.
  unfold mbind at 1, M_bind at 1, bind at 1.
  rewrite Hsort, bind_ret_l. cbv beta iota.
  fold (preview new_matches' g' old') in Hprev. rewrite Hprev.
  unfold mbind at 1, M_bind at 1, bind at 1.
  unfold mbind at 1, M_bind at 1, bind at 1.
  rewrite Htest, bind_ret_l. reflexivity.
Qed.

(** X17: when the comparison writes "OK".  For matches with one item per
    row in every column and a column [miller_index], the comparison of
    lines 300-364 reaches "OK" exactly when there are at least ten
    matches, the columns could be attached and the results sorted, and
    every pair of the sorted results agrees in its three gradient
    components for every parameter. *)
Theorem comparison_succeeds_iff matches g old_matches :
  consistent matches ->
  is_Some (columns matches !! "miller_index") ->
  (exists out, compare matches g old_matches = (out, inr tt))
  <-> 10 <= len matches
      /\ exists new_matches' g' old',
           compared matches g old_matches new_matches' g' old'
           /\ forall i j, i < len matches -> j < length (dX_dp g) ->
                agree_at g' old' i j.
Proof.
  intros Hcons Hmi. split.
  - intros [out Hrun]. pose proof Hrun as Hok%compare_ok_agree.
    destruct Hok as (nm' & g' & old' & Hcmp & _ & _ & _ & Hagree).
    split; [|by exists nm', g', old'].
    apply compare_ok in Hrun as (nm'' & g'' & old'' & po & Hcmp' & Hprev & _).
    destruct (compared_lengths _ _ _ _ _ _ Hcmp') as [Hlen _].
    apply preview_from in Hprev as (_ & Hin & Hiff).
    assert (Hpo : length po = 10) by (by apply Hiff).
    destruct po as [|p po]; [done|]. destruct Hin; [done|]. simpl in *. lia.
  - intros (Hten & nm' & g' & old' & Hcmp & Hagree).
    by eapply compare_returns.
Qed.

End Succeeds.

(** ** Pipelines that agree pass (lines 300-364) *)

Lemma setitem_returns {A} (l : list A) i x :
  i < length l -> setitem l i x = ([], inr (<[i := x]> l)).
Proof. intros Hi. by apply setitem_ok. Qed.

Lemma select_returns {A} (a : list A) idx :
  Forall (fun i => i < length a) idx ->
  select a idx = ([], inr (take_rows idx a)).
Proof. intros Hidx. by apply select_ok. Qed.

Lemma select_gradient_returns new_matches order i g a b c :
  order_column new_matches = ([], inr order) ->
  dX_dp g !! i = Some a -> dY_dp g !! i = Some b ->
  dPhi_dp g !! i = Some c ->
  Forall (fun r => r < length a) order ->
  Forall (fun r => r < length b) order ->
  Forall (fun r => r < length c) order ->
  select_gradient new_matches i g = ([], inr (selected order i g a b c)).
Proof.
  intros Horder Ha Hb Hc Fa Fb Fc. unfold select_gradient.
  pose proof (lookup_lt_Some _ _ _ Ha) as Hla.
  pose proof (lookup_lt_Some _ _ _ Hb) as Hlb.
  pose proof (lookup_lt_Some _ _ _ Hc) as Hlc.
  read_item Ha. rewrite Horder, bind_ret_l. cbv beta.
  rewrite (select_returns _ _ Fa), bind_ret_l. cbv beta.
  rewrite (setitem_returns _ _ _ Hla), bind_ret_l. cbv beta.
  read_item Hb. rewrite bind_ret_l. cbv beta.
  rewrite (select_returns _ _ Fb), bind_ret_l. cbv beta.
  rewrite (setitem_returns _ _ _ Hlb), bind_ret_l. cbv beta.
  read_item Hc. rewrite bind_ret_l. cbv beta.
  rewrite (select_returns _ _ Fc), bind_ret_l. cbv beta.
  rewrite (setitem_returns _ _ _ Hlc), bind_ret_l. cbv beta.
  reflexivity.
Qed.

(** The loop of lines 342-345 completes when every parameter has its three
    arrays, each with an item for every index of the order. *)
Lemma select_gradients_returns_from new_matches order k s g :
  order_column new_matches = ([], inr order) ->
  (forall j, s <= j < s + k ->
     exists a b c,
       dX_dp g !! j = Some a /\ dY_dp g !! j = Some b
       /\ dPhi_dp g !! j = Some c
       /\ Forall (fun r => r < length a) order
       /\ Forall (fun r => r < length b) order
       /\ Forall (fun r => r < length c) order) ->
  exists g', for_each (seq s k) (select_gradient new_matches) g
             = ([], inr g').
Proof.
  intros Horder. revert s g.
  induction k as [|k IH]; intros s g Hall; cbn [seq for_each].
  - by eexists.
  - destruct (Hall s) as (a & b & c & Ha & Hb & Hc & Fa & Fb & Fc); [lia|].
    rewrite (select_gradient_returns _ _ _ _ _ _ _ Horder Ha Hb Hc Fa Fb Fc),
      bind_ret_l.
    apply IH. intros j Hj.
    destruct (Hall j) as (a' & b' & c' & Ha' & Hb' & Hc' & rest); [lia|].
    exists a', b', c'. unfold selected. simpl.
    rewrite !list_lookup_insert_ne by lia. done.
Qed.

Section Pass.
Context `{Library}.

(** X18: the harness raises no false alarm.  Take matches with one item
    per row in every column, a column [miller_index], at least ten rows
    and x residuals none of which is a NaN; gradient arrays with one item
    per match for at least one parameter; and old matches that carry the
    same x residuals, in whatever order.  If every old match agrees, in
    its three gradient components for every parameter, with every new
    match of equal x residual, then the comparison of lines 300-364
    reaches "OK". *)
Theorem agreeing_pipelines_pass matches g old_matches keys :
  consistent matches ->
  is_Some (columns matches !! "miller_index") ->
  columns matches !! "x_resid" = Some (CDouble keys) ->
  Forall (fun k => is_nan k = false) keys ->
  map ObsPredMatch.x_resid old_matches ≡ₚ keys ->
  10 <= len matches ->
  0 < length (dX_dp g) ->
  (forall j, j < length (dX_dp g) ->
     exists a b c,
       dX_dp g !! j = Some a /\ dY_dp g !! j = Some b
       /\ dPhi_dp g !! j = Some c
       /\ length a = len matches /\ length b = len matches
       /\ length c = len matches) ->
  (forall r k m j,
     keys !! r = Some k -> m ∈ old_matches ->
     (k =? ObsPredMatch.x_resid m)%float = true ->
     j < length (dX_dp g) ->
     agree_with g r m j) ->
  exists out, compare matches g old_matches = (out, inr tt).
Proof.
  intros Hcons Hmi Hkeys Hnan Hperm Hten Hpar Hshape Hagree.
  set (perm := sort_permutation (CDouble keys)).
  assert (Hklen : length keys = len matches) by apply (Hcons _ _ Hkeys).
  assert (Hin : Forall (fun i => i < len matches) perm).
  { rewrite <- Hklen. apply argsort_in_range. }
  assert (Hplen : length perm = len matches).
  { rewrite <- Hklen. apply length_argsort. }
  destruct (Hshape 0 Hpar) as (a0 & b0 & c0 & Ha0 & Hb0 & Hc0 & _).
  set (nm' := reorder perm (attached matches a0 b0 c0)).
  assert (Hatt : attach_columns matches g
                 = ([], inr (attached matches a0 b0 c0))).
  { apply attach_columns_ok. split; [done|]. by exists a0, b0, c0. }
  assert (Horder : order_column nm' = ([], inr perm))
    by (by apply sorted_order).
  destruct (select_gradients_returns_from nm' perm (length (dX_dp g)) 0 g
              Horder) as [g' Hsel].
  { intros j Hj.
    destruct (Hshape j) as (a & b & c & Ha & Hb & Hc & La & Lb & Lc); [lia|].
    exists a, b, c. rewrite La, Lb, Lc. done. }
  set (old' := sorted PrimFloat.ltb ObsPredMatch.x_resid old_matches).
  assert (Hsort : sort_matches (attached matches a0 b0 c0) g old_matches
                  = ([], inr (nm', g', old'))).
  { unfold sort_matches, sort, getcol.
    rewrite attached_other, Hkeys by apply x_resid_not_attached.
    unfold mret, M_ret, ret. rewrite !bind_ret_l.
    fold perm. fold nm'. unfold select_gradients, range.
    by rewrite Hsel, bind_ret_l. }
  assert (Hcmp : compared matches g old_matches nm' g' old')
    by (by eexists).
  apply (compare_returns _ _ _ _ _ _ Hcons Hmi Hten Hcmp).
  intros i j Hi Hj.
  pose proof (sorted_residuals_meet _ _ Hnan Hperm) as Hmeet.
  apply select_gradients_from in Hsel as (_ & _ & _ & _ & _ & Hsel).
  destruct (Hsel j) as (order & a & b & c & Horder' & Ha & Hb & Hc
                          & Fa & Fb & Fc & Ha' & Hb' & Hc'); [lia|].
  rewrite Horder in Horder'. injection Horder' as <-.
  destruct (lookup_lt_is_Some_2 perm i) as [r Hr]; [lia|].
  assert (Hrl : r < length keys).
  { rewrite Forall_lookup in Hin. rewrite Hklen. by eapply Hin. }
  destruct (lookup_lt_is_Some_2 keys r Hrl) as [k Hk].
  assert (Hk' : sorted PrimFloat.ltb id keys !! i = Some k).
  { rewrite <- take_rows_argsort.
    rewrite (proj2 (take_rows_in_range _ _ (argsort_in_range _ keys)) _ _ Hr).
    done. }
  destruct (Forall2_lookup_l _ _ _ _ _ Hmeet Hk') as (k2 & Hm & Hkm).
  apply list_lookup_fmap_Some in Hm as (m & -> & Hm).
  assert (Hmem : m ∈ old_matches).
  { rewrite <- (sorted_perm PrimFloat.ltb ObsPredMatch.x_resid).
    by eapply list_elem_of_lookup_2. }
  destruct (Hagree r k m j Hk Hmem Hkm Hj)
    as (x & y & phi & gj & Hx & Hy & Hphi & Hgj & Ax & Ay & Aphi).
  exists x, y, phi, gj.
  unfold component_at in *. rewrite Ha in Hx. rewrite Hb in Hy.
  rewrite Hc in Hphi. rewrite Ha', Hb', Hc'. simpl in *.
  rewrite (proj2 (take_rows_in_range _ _ Fa) _ _ Hr),
          (proj2 (take_rows_in_range _ _ Fb) _ _ Hr),
          (proj2 (take_rows_in_range _ _ Fc) _ _ Hr).
  split; [done|]. split; [done|]. split; [done|].
  split; [|done]. unfold old_gradient_at, old'. by rewrite Hm.
Qed.

End Pass.

(** ** The further properties at work in the small world *)

Lemma demo_compared :
  exists new_matches' g' old',
    compared (Demo.matches 10) (Demo.gradients_for 10)
      (Demo.old_matches_for 10) new_matches' g' old'.
Proof.
  destruct (attach_columns (Demo.matches 10) (Demo.gradients_for 10))
    as [o0 [e|nm0]] eqn:Hatt.
  { vm_compute in Hatt. discriminate Hatt. }
  assert (o0 = []) as -> by (by apply attach_columns_ok in Hatt as [-> _]).
  destruct (sort_matches nm0 (Demo.gradients_for 10)
              (Demo.old_matches_for 10))
    as [o1 [e|[[nm' g'] old']]] eqn:Hsort.
  { apply attach_columns_ok in Hatt as [_ (a & b & c & Ha & Hb & Hc & ->)].
    vm_compute in Ha, Hb, Hc. injection Ha as <-. injection Hb as <-.
    injection Hc as <-. vm_compute in Hsort. discriminate Hsort. }
  assert (o1 = []) as -> by (by apply sort_matches_ok in Hsort as [-> _]).
  exists nm', g', old', nm0. done.
Qed.

Lemma single_detector_asserted_witness :
  @script (Variants.with_detectors 2 (Demo.library 10 10))
  = ([], inl AssertionError).
Proof.
  destruct (@script (Variants.with_detectors 2 (Demo.library 10 10)))
    as [out r] eqn:Hrun.
  destruct (proj1 (@single_detector_asserted
                     (Variants.with_detectors 2 (Demo.library 10 10))
                     out r Hrun)) as [-> ->].
  - simpl. lia.
  - reflexivity.
Defined.

Lemma beam_shift_hits_free_axis_witness :
  exists st1 sv,
    @apply_shifts (Demo.library 10 10) (fix_beam Demo.parameterisations)
    = ([], inr (st1, sv))
    /\ st1 s0_param = [{| value := 0; fixed := true |};
                       {| value := 2; fixed := false |}]
    /\ s0_p_vals sv = [0%float].
Proof.
  destruct (@beam_shift_hits_free_axis (Demo.library 10 10)
              Demo.parameterisations (Demo.free 0) (Demo.free 0) eq_refl)
    as (st1 & sv & Hrun & Hs0 & Hsv).
  exists st1, sv. split; [exact Hrun|]. split; [|exact Hsv].
  rewrite Hs0. vm_compute. reflexivity.
Defined.


Lemma sorted_table_well_formed_witness :
  exists new_matches' g' old',
    compared (Demo.matches 10) (Demo.gradients_for 10)
      (Demo.old_matches_for 10) new_matches' g' old'
    /\ consistent new_matches'
    /\ len new_matches' = 10
    /\ dom (columns new_matches')
       = list_to_set ["miller_index"; "x_resid"; "order"; "dX_dp0";
                      "dY_dp0"; "dPhi_dp0"].
Proof.
  destruct demo_compared as (nm' & g' & old' & Hcmp).
  assert (HA : forall a, dX_dp (Demo.gradients_for 10) !! 0 = Some a ->
                 length a = len (Demo.matches 10)).
  { intros a [= <-]. reflexivity. }
  assert (HB : forall b, dY_dp (Demo.gradients_for 10) !! 0 = Some b ->
                 length b = len (Demo.matches 10)).
  { intros b [= <-]. reflexivity. }
  assert (HC : forall c, dPhi_dp (Demo.gradients_for 10) !! 0 = Some c ->
                 length c = len (Demo.matches 10)).
  { intros c [= <-]. reflexivity. }
  destruct (sorted_table_well_formed _ _ _ _ _ _ (demo_consistent 10)
              HA HB HC Hcmp)
    as (Hcons & Hlen & Hdom).
  exists nm', g', old'. split; [exact Hcmp|]. split; [exact Hcons|].
  split; [exact Hlen|]. rewrite Hdom. vm_compute. reflexivity.
Defined.

Lemma preview_reads_ten_rows_witness :
  exists out e,
    preview (Demo.matches 3) (Demo.gradients_for 3) (Demo.old_matches_for 3)
    = (out, inl e)
    /\ length out <= 3 /\ e <> AssertionError.
Proof.
  destruct (preview (Demo.matches 3) (Demo.gradients_for 3)
              (Demo.old_matches_for 3)) as [out r] eqn:Hrun.
  destruct (preview_reads_ten_rows _ _ _ _ _ Hrun)
    as (_ & Hnew & _ & _ & Hshort).
  destruct Hshort as (e & -> & He); [left; simpl; lia|].
  exists out, e. split; [reflexivity|]. split; [exact Hnew|exact He].
Defined.

Lemma ok_needs_enough_matches_witness :
  exists out,
    @compare (Demo.library 10 11) (Demo.matches 10) (Demo.gradients_for 10)
      (Demo.old_matches_for 11) = (out, inr tt)
    /\ 10 <= len (Demo.matches 10)
    /\ len (Demo.matches 10) <= length (Demo.old_matches_for 11).
Proof.
  destruct (@compare (Demo.library 10 11) (Demo.matches 10)
              (Demo.gradients_for 10) (Demo.old_matches_for 11))
    as [out r] eqn:Hrun.
  assert (r = inr tt) as ->.
  { vm_compute in Hrun. by injection Hrun as _ <-. }
  destruct (@ok_needs_enough_matches (Demo.library 10 11) _ _ _ _ Hrun)
    as (_ & Hten & Hold).
  exists out. split; [reflexivity|]. split; [exact Hten|exact Hold].
Defined.

Lemma assertion_fails_after_preview_witness :
  exists out,
    @compare (Demo.library 10 10) (Demo.matches 10)
      {| dX_dp := dX_dp (Demo.gradients_for 10);
         dY_dp := dX_dp (Demo.gradients_for 10);
         dPhi_dp := dPhi_dp (Demo.gradients_for 10) |}
      (Demo.old_matches_for 10) = (out, inl AssertionError)
    /\ exists before po after,
         out = before ++ po ++ PStr "TESTING GRADIENTS" :: after
         /\ length po = 10.
Proof.
  destruct (@compare (Demo.library 10 10) (Demo.matches 10)
              {| dX_dp := dX_dp (Demo.gradients_for 10);
                 dY_dp := dX_dp (Demo.gradients_for 10);
                 dPhi_dp := dPhi_dp (Demo.gradients_for 10) |}
              (Demo.old_matches_for 10))
    as [out r] eqn:Hrun.
  assert (r = inl AssertionError) as ->.
  { vm_compute in Hrun. by injection Hrun as _ <-. }
  destruct (@assertion_fails_after_preview (Demo.library 10 10) _ _ _ _ Hrun)
    as ((before & po & after & Hout & Hpo & _) & _).
  exists out. split; [reflexivity|]. by exists before, po, after.
Defined.

Lemma miller_indices_not_compared_witness :
  (@compare (Demo.library 10 10) (Demo.matches 10) (Demo.gradients_for 10)
     (map (fun m =>
             {| ObsPredMatch.miller_index := (0, 0, 0)%Z;
                ObsPredMatch.x_resid := ObsPredMatch.x_resid m;
                ObsPredMatch.gradients := ObsPredMatch.gradients m |})
          (Demo.old_matches_for 10))).2
  = inr tt.
Proof.
  assert (Hsame : Forall2 same_but_index (Demo.old_matches_for 10)
            (map (fun m =>
                    {| ObsPredMatch.miller_index := (0, 0, 0)%Z;
                       ObsPredMatch.x_resid := ObsPredMatch.x_resid m;
                       ObsPredMatch.gradients := ObsPredMatch.gradients m |})
                 (Demo.old_matches_for 10))).
  { apply Forall2_fmap_r, Forall_Forall2_diag, Forall_true.
    intros m. split; reflexivity. }
  rewrite <- (proj1 (@miller_indices_not_compared (Demo.library 10 10)
                       (Demo.matches 10) (Demo.gradients_for 10) _ _ Hsame)).
  vm_compute. reflexivity.
Defined.

Lemma pipelines_see_restored_models_witness :
  exists out st1 st2 matches g old_matches,
    @simulate_and_refine (Demo.library 10 10)
    = (out, inr (matches, g, old_matches))
    /\ get_param_vals (st1 det_param) = [102; 2; 2; 5; 5; 5]%float
    /\ get_param_vals (st2 det_param) = [100; 0; 0; 0; 0; 0]%float
    /\ old_matches
       = @old_get_matches (Demo.library 10 10) st2
           (@to_table (Demo.library 10 10)
              (@observations (Demo.library 10 10) st1)).
Proof.
  destruct (@simulate_and_refine (Demo.library 10 10))
    as [out [e|[[matches g] old_matches]]] eqn:Hrun.
  { vm_compute in Hrun. discriminate Hrun. }
  destruct (@pipelines_see_restored_models (Demo.library 10 10) _ _ _ _ Hrun)
    as (st1 & sv & st2 & Hshift & Hsame & _ & _ & _ & Hold).
  exists out, st1, st2, matches, g, old_matches.
  split; [reflexivity|]. split; [|split; [|exact Hold]].
  - vm_compute in Hshift. injection Hshift as <- _. vm_compute. reflexivity.
  - rewrite Hsame. vm_compute. reflexivity.
Defined.

Lemma sorted_arrays_keep_their_values_witness :
  exists new_matches' g' old' a a',
    compared (Demo.matches 10) (Demo.gradients_for 10)
      (Demo.old_matches_for 10) new_matches' g' old'
    /\ dX_dp (Demo.gradients_for 10) !! 2 = Some a
    /\ dX_dp g' !! 2 = Some a'
    /\ length a' = 10 /\ a' ≡ₚ a.
Proof.
  destruct demo_compared as (nm' & g' & old' & Hcmp).
  assert (Hj : 2 < length (dX_dp (Demo.gradients_for 10)))
    by (vm_compute; lia).
  destruct (sorted_arrays_keep_their_values _ _ _ _ _ _ 2
              (demo_consistent 10) Hcmp Hj)
    as (a & b & c & a' & b' & c' & Ha & _ & _ & Ha' & _ & _ & Hla & _ & _
          & _ & _ & _ & Hperm & _).
  exists nm', g', old', a, a'. split; [exact Hcmp|].
  split; [exact Ha|]. split; [exact Ha'|]. split; [exact Hla|].
  apply Hperm. vm_compute in Ha. injection Ha as <-. reflexivity.
Defined.



Lemma sorting_aligns_equal_residuals_witness :
  exists new_matches' g' old' keys',
    compared (Demo.matches 10) (Demo.gradients_for 10)
      (Demo.old_matches_for 10) new_matches' g' old'
    /\ columns new_matches' !! "x_resid" = Some (CDouble keys')
    /\ Forall2 (fun k m => (k =? ObsPredMatch.x_resid m)%float = true)
               keys' old'.
Proof.
  destruct demo_compared as (nm' & g' & old' & Hcmp).
  assert (Hnan : Forall (fun k => is_nan k = false)
                        (map Demo.resid (range 10))).
  { repeat (constructor; [reflexivity|]). constructor. }
  assert (Hperm : map ObsPredMatch.x_resid (Demo.old_matches_for 10)
                  ≡ₚ map Demo.resid (range 10)).
  { unfold Demo.old_matches_for. rewrite map_map. simpl ObsPredMatch.x_resid.
    rewrite map_rev. symmetry. apply Permutation_rev. }
  destruct (sorting_aligns_equal_residuals (Demo.matches 10) _ _ _ _ _
              (map Demo.resid (range 10)) eq_refl Hnan Hperm Hcmp)
    as (keys' & Hkeys' & _ & Hmeet).
  exists nm', g', old', keys'.
  split; [exact Hcmp|]. split; [exact Hkeys'|exact Hmeet].
Defined.

Lemma comparison_succeeds_iff_witness :
  exists new_matches' g' old',
    compared (Demo.matches 10) (Demo.gradients_for 10)
      (Demo.old_matches_for 10) new_matches' g' old'
    /\ forall i j, i < 10 -> j < 3 ->
         @agree_at (Demo.library 10 10) g' old' i j.
Proof.
  assert (Hm : is_Some (columns (Demo.matches 10) !! "miller_index"))
    by (eexists; reflexivity).
  assert (Hrun : exists out,
            @compare (Demo.library 10 10) (Demo.matches 10)
              (Demo.gradients_for 10) (Demo.old_matches_for 10)
            = (out, inr tt)).
  { eexists. vm_compute. reflexivity. }
  destruct (proj1 (@comparison_succeeds_iff (Demo.library 10 10)
                     (Demo.matches 10) (Demo.gradients_for 10)
                     (Demo.old_matches_for 10) (demo_consistent 10) Hm)
                  Hrun)
    as (_ & nm' & g' & old' & Hcmp & Hagree).
  exists nm', g', old'. split; [exact Hcmp|exact Hagree].
Defined.

(** The cases of a number below a bound that the context gives. *)
Ltac cases_below r := first [lia | destruct r as [|r]; [|cases_below r]].

Lemma agreeing_pipelines_pass_witness :
  exists out,
    @compare (Demo.library 10 10) (Demo.matches 10) (Demo.gradients_for 10)
      (Demo.old_matches_for 10) = (out, inr tt).
Proof.
  apply (@agreeing_pipelines_pass (Demo.library 10 10) (Demo.matches 10)
           (Demo.gradients_for 10) (Demo.old_matches_for 10)
           (map Demo.resid (range 10))).
  - apply demo_consistent.
  - eexists. reflexivity.
  - reflexivity.
  - repeat (constructor; [reflexivity|]). constructor.
  - unfold Demo.old_matches_for. rewrite map_map. simpl ObsPredMatch.x_resid.
    rewrite map_rev. symmetry. apply Permutation_rev.
  - simpl. lia.
  - simpl. lia.
  - intros j Hj. simpl in Hj.
    cases_below j; by eexists _, _, _.
  - intros r k m j Hr Hm Heq Hj.
    apply list_elem_of_In in Hm. simpl in Hj.
    assert (Hr10 : r < 10).
    { apply lookup_lt_Some in Hr. exact Hr. }
    cases_below r; injection Hr as <-;
      simpl in Hm;
      repeat (destruct Hm as [<-|Hm]; [vm_compute in Heq|]);
      try discriminate Heq; try contradiction;
      cases_below j;
      eexists _, _, _, _; repeat split; vm_compute; reflexivity.
Defined.
